(** * endian-io: byte-order-aware binary I/O (endian_io.c)

    A shallow embedding of [src/endian_io.c] and the properties of its
    transfer engine.

    - Bytes are [Byte.byte]; the fixed-width integers handled by the
      byte-swap helpers are [Z] with their wrap-around written out.  The
      helpers are the portable shift formulas of the source; the compiler
      intrinsics selected under GCC and Clang compute the same function.
    - The caller's array, the scratch buffer and the streams are lists of
      bytes; a pointer is a region and an offset, and an access outside its
      object is a fault.
    - Element counts, sizes and offsets ([size_t]) are [nat]: every product
      the code forms is an offset into the caller's array or into the scratch
      buffer, so it is bounded by the size of an object that exists and does
      not wrap.
    - The batching loop of the write path carries fuel, one unit per
      evaluation of its condition; the other loops are counted loops. *)

From Stdlib Require Import ZArith Lia.
From Stdlib Require Import Strings.Byte.
From stdpp Require Import base tactics option list.

Local Open Scope Z_scope.

(** ** Bytes and machine integers *)

Module Bytes.

Definition byte_to_Z (b : byte) : Z := Z.of_N (Byte.to_N b).

(** Conversion to [uint8_t]: the value modulo 256. *)
Definition Z_to_byte (z : Z) : byte :=
  match Byte.of_N (Z.to_N (z mod 256)) with
  | Some b => b
  | None => x00
  end.

(** The integer held by a span of bytes whose lowest address is the least
    significant byte. *)
Fixpoint load_le (bs : list byte) : Z :=
  match bs with
  | [] => 0
  | b :: r => byte_to_Z b + 256 * load_le r
  end.

(** The [n] bytes of [x], least significant first. *)
Fixpoint store_le (n : nat) (x : Z) : list byte :=
  match n with
  | O => []
  | S k => Z_to_byte x :: store_le k (x / 256)
  end.

Definition load_be (bs : list byte) : Z := load_le (reverse bs).
Definition store_be (n : nat) (x : Z) : list byte := reverse (store_le n x).

End Bytes.
Import Bytes.

(** ** The program: [src/endian_io.c] *)

(** [endian_t], the internal byte-order enumeration. *)
Inductive endian_t := ENDIAN_LITTLE | ENDIAN_BIG.

(** [==] on [endian_t]. *)
Definition endian_eqb (a b : endian_t) : bool :=
  match a, b with
  | ENDIAN_LITTLE, ENDIAN_LITTLE | ENDIAN_BIG, ENDIAN_BIG => true
  | _, _ => false
  end.

(** The executing machine is a parameter of every function: its byte order
    decides how a [uint16_t], [uint32_t] or [uint64_t] object is laid out in
    memory, which is what the pointer casts of the source observe. *)
Definition load_host (host : endian_t) (bs : list byte) : Z :=
  match host with
  | ENDIAN_LITTLE => load_le bs
  | ENDIAN_BIG => load_be bs
  end.

Definition store_host (host : endian_t) (n : nat) (x : Z) : list byte :=
  match host with
  | ENDIAN_LITTLE => store_le n x
  | ENDIAN_BIG => store_be n x
  end.

(** [is_little_endian]: [uint16_t x = 1; return *((uint8_t* )&x) == 1;] *)
Definition is_little_endian (host : endian_t) : bool :=
  match store_host host 2 1 with
  | b :: _ => byte_to_Z b =? 1
  | [] => false
  end.

(** *** Byte-swap helpers (the portable shift formulas) *)

(** Left shift of a [w]-bit unsigned integer: the bits shifted out are lost. *)
Definition shl (w : Z) (x k : Z) : Z := Z.shiftl x k mod 2 ^ w.

(** [bswap16]: the operands are promoted to [int], the result is converted
    back to [uint16_t] on return. *)
Definition bswap16 (x : Z) : Z :=
  Z.lor (Z.shiftr x 8) (Z.shiftl x 8) mod 2 ^ 16.

Definition bswap32 (x : Z) : Z :=
  Z.lor (Z.lor (Z.lor
    (Z.land (Z.shiftr x 24) 0xFF)
    (Z.land (Z.shiftr x 8) 0xFF00))
    (Z.land (shl 32 x 8) 0xFF0000))
    (Z.land (shl 32 x 24) 0xFF000000).

Definition bswap64 (x : Z) : Z :=
  Z.lor (Z.lor (Z.lor (Z.lor (Z.lor (Z.lor (Z.lor
    (Z.land (Z.shiftr x 56) 0xFF)
    (Z.land (Z.shiftr x 40) 0xFF00))
    (Z.land (Z.shiftr x 24) 0xFF0000))
    (Z.land (Z.shiftr x 8) 0xFF000000))
    (Z.land (shl 64 x 8) 0xFF00000000))
    (Z.land (shl 64 x 24) 0xFF0000000000))
    (Z.land (shl 64 x 40) 0xFF000000000000))
    (Z.land (shl 64 x 56) 0xFF00000000000000).

Local Close Scope Z_scope.

(** One iteration of the loop of [reverse_bytes]:
    [tmp = data[i]; data[i] = data[j]; data[j] = tmp].  The span handed to
    [reverse_bytes] always holds [size] bytes, so both indices are in
    range. *)
Definition swap_bytes (data : list byte) (i j : nat) : list byte :=
  match data !! i, data !! j with
  | Some tmp, Some b => <[j:=tmp]> (<[i:=b]> data)
  | _, _ => data
  end.

(** [for (i = ...; i < size / 2; i++)], with [n] iterations left. *)
Fixpoint reverse_bytes_loop (n i size : nat) (data : list byte) : list byte :=
  match n with
  | O => data
  | S k => reverse_bytes_loop k (S i) size (swap_bytes data i (size - 1 - i))
  end.

Definition reverse_bytes (data : list byte) (size : nat) : list byte :=
  reverse_bytes_loop (size / 2) 0 size data.

(** [convert_endian] on the [size] bytes of one element. *)
Definition convert_endian (host : endian_t) (elem : list byte) (size : nat)
  : list byte :=
  match size with
  | 2%nat => store_host host 2 (bswap16 (load_host host elem))
  | 4%nat => store_host host 4 (bswap32 (load_host host elem))
  | 8%nat => store_host host 8 (bswap64 (load_host host elem))
  | _ => reverse_bytes elem size
  end.

(** *** Memory: the caller's array and the scratch buffer *)

Inductive region := Caller | Scratch.

Record memory := Memory { m_data : list byte; m_buffer : list byte }.

(** A pointer is a region and a byte offset into it. *)
Definition ptr : Type := region * nat.

Definition region_bytes (m : memory) (r : region) : list byte :=
  match r with
  | Caller => m_data m
  | Scratch => m_buffer m
  end.

Definition region_set (m : memory) (r : region) (l : list byte) : memory :=
  match r with
  | Caller => Memory l (m_buffer m)
  | Scratch => Memory (m_data m) l
  end.

(** Overwrite [l] from offset [off] on with [bs]. *)
Definition splice (l : list byte) (off : nat) (bs : list byte) : list byte :=
  take off l ++ bs ++ drop (off + length bs) l.

(** Reading [n] bytes at [p]; [None] is an access outside the object. *)
Definition mem_load (m : memory) (p : ptr) (n : nat) : option (list byte) :=
  let l := region_bytes m p.1 in
  if (p.2 + n <=? length l)%nat then Some (take n (drop p.2 l)) else None.

Definition mem_store (m : memory) (p : ptr) (bs : list byte) : option memory :=
  let l := region_bytes m p.1 in
  if (p.2 + length bs <=? length l)%nat
  then Some (region_set m p.1 (splice l p.2 bs))
  else None.

Definition memcpy (m : memory) (dst src : ptr) (n : nat) : option memory :=
  bs ← mem_load m src n; mem_store m dst bs.

(** [convert_endian(p, size)]: the element is converted in place. *)
Definition convert_endian_at (host : endian_t) (m : memory) (p : ptr)
  (size : nat) : option memory :=
  bs ← mem_load m p size; mem_store m p (convert_endian host bs size).

(** *** Streams *)

(** An output stream: the bytes transferred by each [fwrite] call so far,
    oldest first, and the number of bytes the sink still accepts. *)
Record ostream := OStream { o_calls : list (list byte); o_room : nat }.

Definition o_bytes (s : ostream) : list byte := concat (o_calls s).

(** [fwrite(bs, size, nmemb, s)]: the number of complete elements
    transferred and the stream afterwards. *)
Definition fwrite (bs : list byte) (size nmemb : nat) (s : ostream)
  : nat * ostream :=
  let k := (size * nmemb) `min` o_room s in
  ((k / size)%nat, OStream (o_calls s ++ [take k bs]) (o_room s - k)).

(** An input stream: the bytes not yet read. *)
Definition istream : Type := list byte.

(** [fread(_, size, nmemb, s)]: the number of complete elements transferred,
    the bytes stored at the destination and the stream afterwards. *)
Definition fread (size nmemb : nat) (s : istream)
  : nat * list byte * istream :=
  let k := (size * nmemb) `min` length s in
  ((k / size)%nat, take k s, drop k s).

(** *** Outcomes of a call *)

Inductive outcome (A : Type) : Type :=
| Returned (rc : Z) (a : A)   (* the call returned [rc], leaving [a] *)
| Running (a : A)             (* still in its loop when the fuel ran out *)
| Fault.                      (* an access outside an object *)
Arguments Returned {A} rc a.
Arguments Running {A} a.
Arguments Fault {A}.

Definition outcome_map {A B} (f : A → B) (o : outcome A) : outcome B :=
  match o with
  | Returned rc a => Returned rc (f a)
  | Running a => Running (f a)
  | Fault => Fault
  end.

(** The state a call is in when it is observed: none after a fault. *)
Definition outcome_state {A} (o : outcome A) : option A :=
  match o with
  | Returned _ a | Running a => Some a
  | Fault => None
  end.

(** *** [write_endian] *)

Definition buffer_size : nat := 256.

Record wstate := WState { ws_file : ostream; ws_mem : memory }.

(** The copy-and-swap loop, [for (i = ...; i < batch; i++)], with [n]
    iterations left. *)
Fixpoint fill_loop (host : endian_t) (n i offset size : nat) (m : memory)
  : option memory :=
  match n with
  | O => Some m
  | S k =>
    let dst := (Scratch, i * size)%nat in
    let src := (Caller, (offset + i) * size)%nat in
    m1 ← memcpy m dst src size;
    m2 ← convert_endian_at host m1 dst size;
    fill_loop host k (S i) offset size m2
  end.

Definition fill_batch (host : endian_t) (batch offset size : nat) (m : memory)
  : option memory :=
  fill_loop host batch 0 offset size m.

(** [for (size_t offset = 0; offset < num; )]; one unit of fuel per
    evaluation of the loop condition. *)
Fixpoint write_loop (host : endian_t) (fuel : nat)
  (offset num size block_elems : nat) (st : wstate) : outcome wstate :=
  match fuel with
  | O => Running st
  | S fuel' =>
    if (offset <? num)%nat then
      let batch :=
        if (num - offset <? block_elems)%nat then (num - offset)%nat
        else block_elems in
      match fill_batch host batch offset size (ws_mem st) with
      | None => Fault
      | Some m =>
        match mem_load m (Scratch, 0%nat) (size * batch) with
        | None => Fault
        | Some bs =>
          let '(n, f) := fwrite bs size batch (ws_file st) in
          if negb (n =? batch)%nat then Returned (-1) (WState f m)
          else write_loop host fuel' (offset + batch) num size block_elems
                 (WState f m)
        end
      end
    else Returned 0 st
  end.

(** What a call leaves behind its two pointer arguments. *)
Definition wworld : Type := option ostream * option (list byte).

(** [alloc] is what the allocation of the scratch buffer yields: [None] when
    [aligned_alloc] or [posix_memalign] fails, otherwise the (uninitialised)
    block of [buffer_size] bytes; on the stack-array build it is never
    [None]. *)
Definition write_endian (host : endian_t) (alloc : option (list byte))
  (fuel : nat) (file : option ostream) (data : option (list byte))
  (num size : nat) (target_endian : endian_t) : outcome wworld :=
  match file, data with
  | Some f, Some d =>
    if (size =? 0)%nat || (num =? 0)%nat then Returned (-1) (file, data)
    else
      let host_little := is_little_endian host in
      let swap_needed :=
        (host_little && endian_eqb target_endian ENDIAN_BIG)
        || (negb host_little && endian_eqb target_endian ENDIAN_LITTLE) in
      if negb swap_needed then
        match mem_load (Memory d []) (Caller, 0%nat) (size * num) with
        | None => Fault
        | Some bs =>
          let '(n, f') := fwrite bs size num f in
          Returned (if (n =? num)%nat then 0 else -1) (Some f', Some d)
        end
      else
        match alloc with
        | None => Returned (-1) (file, data)
        | Some buffer =>
          let block_elems := (buffer_size / size)%nat in
          outcome_map (λ st, (Some (ws_file st), Some (m_data (ws_mem st))))
            (write_loop host fuel 0 num size block_elems
               (WState f (Memory d buffer)))
        end
  | _, _ => Returned (-1) (file, data)
  end.

(** *** [read_endian] *)

Record rstate := RState { rs_file : istream; rs_mem : memory }.

(** [for (size_t i = ...; i < num; i++)], with [n] iterations left. *)
Fixpoint read_loop (host : endian_t) (swap_needed : bool) (n i size : nat)
  (st : rstate) : outcome rstate :=
  match n with
  | O => Returned 0 st
  | S k =>
    let dst := (Caller, i * size)%nat in
    match mem_load (rs_mem st) dst size with
    | None => Fault
    | Some _ =>
      let '(cnt, bs, f) := fread 1 size (rs_file st) in
      match mem_store (rs_mem st) dst bs with
      | None => Fault
      | Some m1 =>
        if negb (cnt =? size)%nat then Returned (-1) (RState f m1)
        else if swap_needed then
          match convert_endian_at host m1 dst size with
          | None => Fault
          | Some m2 => read_loop host swap_needed k (S i) size (RState f m2)
          end
        else read_loop host swap_needed k (S i) size (RState f m1)
      end
    end
  end.

Definition rworld : Type := option istream * option (list byte).

Definition read_endian (host : endian_t) (file : option istream)
  (data : option (list byte)) (num size : nat) (source_endian : endian_t)
  : outcome rworld :=
  match file, data with
  | Some f, Some d =>
    if (size =? 0)%nat then Returned (-1) (file, data)
    else
      let host_little := is_little_endian host in
      let swap_needed :=
        (host_little && endian_eqb source_endian ENDIAN_BIG)
        || (negb host_little && endian_eqb source_endian ENDIAN_LITTLE) in
      outcome_map (λ st, (Some (rs_file st), Some (m_data (rs_mem st))))
        (read_loop host swap_needed num 0 size (RState f (Memory d [])))
  | _, _ => Returned (-1) (file, data)
  end.

(** *** Public API *)

Definition write_be host alloc fuel file data num size :=
  write_endian host alloc fuel file data num size ENDIAN_BIG.

Definition read_be host file data num size :=
  read_endian host file data num size ENDIAN_BIG.

Definition write_le host alloc fuel file data num size :=
  write_endian host alloc fuel file data num size ENDIAN_LITTLE.

Definition read_le host file data num size :=
  read_endian host file data num size ENDIAN_LITTLE.

(** *** Typed wrappers ([DEFINE_ENDIAN_IO_FUNCS]) *)

(** The fixed-width integer types the wrappers are generated for.  The
    wrappers for [float] and [double] are the same functions with the
    implementation-defined sizes of those types; they are left out. *)
Inductive NUMBERTYPE :=
| uint8_t | uint16_t | uint32_t | uint64_t
| int8_t | int16_t | int32_t | int64_t.

Definition sizeof (T : NUMBERTYPE) : nat :=
  match T with
  | uint8_t | int8_t => 1
  | uint16_t | int16_t => 2
  | uint32_t | int32_t => 4
  | uint64_t | int64_t => 8
  end.

(** The [ENDIAN] token of the macro. *)
Inductive ENDIAN := be | le.

Definition write_ENDIAN (E : ENDIAN) :=
  match E with
  | be => write_be
  | le => write_le
  end.

Definition read_ENDIAN (E : ENDIAN) :=
  match E with
  | be => read_be
  | le => read_le
  end.

(** [write_##NUMBERTYPE##_##ENDIAN(file, arr, n)]; [arr] is the array seen
    through the cast to [const uint8_t*]. *)
Definition write_NUMBERTYPE_ENDIAN (T : NUMBERTYPE) (E : ENDIAN)
  (host : endian_t) (alloc : option (list byte)) (fuel : nat)
  (file : option ostream) (arr : option (list byte)) (n : nat)
  : outcome wworld :=
  write_ENDIAN E host alloc fuel file arr n (sizeof T).

(** [read_##NUMBERTYPE##_##ENDIAN(file, arr, n)]. *)
Definition read_NUMBERTYPE_ENDIAN (T : NUMBERTYPE) (E : ENDIAN)
  (host : endian_t) (file : option istream) (arr : option (list byte))
  (n : nat) : outcome rworld :=
  read_ENDIAN E host file arr n (sizeof T).

(** The byte order an [ENDIAN] token stands for. *)
Definition order_of (E : ENDIAN) : endian_t :=
  match E with
  | be => ENDIAN_BIG
  | le => ENDIAN_LITTLE
  end.

(** ** Specification vocabulary *)

(** The first [n] elements of [size] bytes of [bs], each with its bytes
    reversed. *)
Fixpoint rev_elems (n size : nat) (bs : list byte) : list byte :=
  match n with
  | O => []
  | S k => reverse (take size bs) ++ rev_elems k size (drop size bs)
  end.

(** The [fwrite] calls the swap path is expected to make for [remaining]
    elements held in [bs]: batches of [min remaining block_elems] elements,
    each element byte-reversed ([n] bounds the number of batches). *)
Fixpoint swap_calls (n block_elems size remaining : nat) (bs : list byte)
  : list (list byte) :=
  match n with
  | O => []
  | S k =>
    if remaining =? 0 then []
    else
      let batch := remaining `min` block_elems in
      rev_elems batch size bs
      :: swap_calls k block_elems size (remaining - batch)
           (drop (batch * size) bs)
  end.

(** What the read path leaves in the destination for [n] elements taken
    from the stream bytes [bs]. *)
Definition host_elems (swap_needed : bool) (n size : nat) (bs : list byte)
  : list byte :=
  if swap_needed then rev_elems n size bs else take (n * size) bs.

(** The memory image, on [host], of an array of unsigned integers of [size]
    bytes each: what the typed wrappers pass to the engine through their
    pointer cast. *)
Definition array_bytes (host : endian_t) (size : nat) (vs : list Z)
  : list byte :=
  concat (map (store_host host size) vs).

(** The array written by [src/test.c], and its two stream images. *)
Definition data_out : list Z :=
  [0x11223344; 0xAABBCCDD; 0x12345678; 0xDEADBEEF]%Z.

Definition be_image : list byte :=
  [x11; x22; x33; x44; xaa; xbb; xcc; xdd;
   x12; x34; x56; x78; xde; xad; xbe; xef].

Definition le_image : list byte :=
  [x44; x33; x22; x11; xdd; xcc; xbb; xaa;
   x78; x56; x34; x12; xef; xbe; xad; xde].

(** ** Facts about bytes and machine integers *)

Section bytes_facts.
Local Open Scope Z_scope.

Lemma byte_to_Z_range b : 0 <= byte_to_Z b < 256.
Proof.
  unfold byte_to_Z. pose proof (Byte.to_N_bounded b). lia.
Qed.

Lemma Z_to_byte_to_Z b : Z_to_byte (byte_to_Z b) = b.
Proof.
  unfold Z_to_byte. pose proof (byte_to_Z_range b) as Hr.
  rewrite Z.mod_small by lia. unfold byte_to_Z.
  rewrite N2Z.id, Byte.of_to_N. reflexivity.
Qed.

Lemma byte_to_Z_to_byte z : byte_to_Z (Z_to_byte z) = z mod 256.
Proof.
  unfold Z_to_byte, byte_to_Z.
  assert (Hr : 0 <= z mod 256 < 256) by (apply Z.mod_pos_bound; lia).
  destruct (Byte.of_N (Z.to_N (z mod 256))) as [b|] eqn:E.
  - apply Byte.to_of_N in E. rewrite E. lia.
  - apply Byte.of_N_None_iff in E. lia.
Qed.

Lemma Z_to_byte_mod z : Z_to_byte (z mod 256) = Z_to_byte z.
Proof. unfold Z_to_byte. rewrite Z.mod_mod by lia. reflexivity. Qed.

Lemma load_le_range bs : 0 <= load_le bs < 256 ^ Z.of_nat (length bs).
Proof.
  induction bs as [|b r IH]; simpl length.
  - simpl. lia.
  - rewrite Nat2Z.inj_succ, Z.pow_succ_r by lia.
    cbn [load_le]. pose proof (byte_to_Z_range b). lia.
Qed.

Lemma store_le_length n x : length (store_le n x) = n.
Proof. revert x. induction n as [|n IH]; intros x; simpl; [done|]. by rewrite IH. Qed.

Lemma store_load_le bs : store_le (length bs) (load_le bs) = bs.
Proof.
  induction bs as [|b r IH]; [done|].
  cbn [length store_le load_le]. pose proof (byte_to_Z_range b) as Hb.
  assert (Hm : (byte_to_Z b + 256 * load_le r) mod 256 = byte_to_Z b)
    by (Z.div_mod_to_equations; lia).
  assert (Hd : (byte_to_Z b + 256 * load_le r) / 256 = load_le r)
    by (Z.div_mod_to_equations; lia).
  rewrite Hd, IH. f_equal.
  rewrite <- Z_to_byte_mod, Hm. apply Z_to_byte_to_Z.
Qed.

Lemma load_store_le n x : load_le (store_le n x) = x mod 256 ^ Z.of_nat n.
Proof.
  revert x. induction n as [|n IH]; intros x.
  - simpl. by rewrite Z.mod_1_r.
  - cbn [store_le load_le]. rewrite IH, byte_to_Z_to_byte.
    rewrite Nat2Z.inj_succ, Z.pow_succ_r by lia.
    assert (0 < 256 ^ Z.of_nat n) by (apply Z.pow_pos_nonneg; lia).
    rewrite (Z.rem_mul_r x 256 (256 ^ Z.of_nat n)) by lia. lia.
Qed.

End bytes_facts.

(** The shift formulas reverse the bytes of their operand. *)

Section bits.
Local Open Scope Z_scope.

Lemma land_mask_byte y k :
  0 <= k → Z.land y (Z.shiftl 255 k) = Z.shiftl (Z.land (Z.shiftr y k) 255) k.
Proof.
  intros Hk. apply Z.bits_inj'. intros n Hn.
  rewrite Z.land_spec, !Z.shiftl_spec by lia.
  destruct (Z.ltb_spec n k).
  - rewrite !(Z.testbit_neg_r _ (n - k)) by lia. apply andb_false_r.
  - rewrite Z.land_spec, Z.shiftr_spec by lia. do 2 f_equal. lia.
Qed.

Lemma land_mask_mod y w k :
  0 <= k → k + 8 <= w →
  Z.land (y mod 2 ^ w) (Z.shiftl 255 k) = Z.land y (Z.shiftl 255 k).
Proof.
  intros Hk Hw. apply Z.bits_inj'. intros n Hn.
  rewrite !Z.land_spec, Z.shiftl_spec by lia.
  destruct (Z.ltb_spec n w).
  - rewrite Z.mod_pow2_bits_low by lia. reflexivity.
  - change 255 with (Z.ones 8). rewrite Z.ones_spec_high by lia.
    by rewrite !andb_false_r.
Qed.

Lemma lor_shiftl_add a b k :
  0 <= k → 0 <= a < 2 ^ k → Z.lor a (Z.shiftl b k) = a + b * 2 ^ k.
Proof.
  intros Hk Ha. rewrite <- Z.shiftl_mul_pow2 by lia.
  assert (Hd : Z.land a (Z.shiftl b k) = 0).
  { apply Z.bits_inj'. intros n Hn.
    rewrite Z.land_spec, Z.bits_0, Z.shiftl_spec by lia.
    destruct (Z.ltb_spec n k).
    - rewrite (Z.testbit_neg_r _ (n - k)) by lia. apply andb_false_r.
    - destruct (Z.eq_dec a 0) as [->|Hne]; [by rewrite Z.bits_0|].
      rewrite (Z.bits_above_log2 a n); [done|lia|].
      apply Z.lt_le_trans with k; [|lia]. apply Z.log2_lt_pow2; lia. }
  rewrite Z.add_nocarry_lxor by done. symmetry. by apply Z.lxor_lor.
Qed.

Lemma bswap16_bytes a b : bswap16 (load_le [a; b]) = load_le [b; a].
Proof.
  unfold bswap16. cbn [load_le].
  pose proof (byte_to_Z_range a). pose proof (byte_to_Z_range b).
  set (za := byte_to_Z a) in *. set (zb := byte_to_Z b) in *.
  rewrite Z.shiftr_div_pow2 by lia.
  replace ((za + 256 * (zb + 256 * 0)) / 2 ^ 8) with zb
    by (change (2 ^ 8) with 256; Z.div_mod_to_equations; lia).
  rewrite lor_shiftl_add by (change (2 ^ 8) with 256; lia).
  change (2 ^ 8) with 256. change (2 ^ 16) with 65536.
  Z.div_mod_to_equations; lia.
Qed.

Lemma bswap32_bytes a b c d :
  bswap32 (load_le [a; b; c; d]) = load_le [d; c; b; a].
Proof.
  unfold bswap32, shl. cbn [load_le].
  pose proof (byte_to_Z_range a). pose proof (byte_to_Z_range b).
  pose proof (byte_to_Z_range c). pose proof (byte_to_Z_range d).
  set (za := byte_to_Z a) in *. set (zb := byte_to_Z b) in *.
  set (zc := byte_to_Z c) in *. set (zd := byte_to_Z d) in *.
  set (x := za + 256 * (zb + 256 * (zc + 256 * (zd + 256 * 0)))).
  change 0xFF00 with (Z.shiftl 255 8).
  change 0xFF0000 with (Z.shiftl 255 16).
  change 0xFF000000 with (Z.shiftl 255 24).
  rewrite !land_mask_mod by lia. rewrite !land_mask_byte by lia.
  change 255 with (Z.ones 8). rewrite !Z.land_ones by lia.
  rewrite !Z.shiftr_div_pow2 by lia. rewrite !(Z.shiftl_mul_pow2 x) by lia.
  replace (x / 2 ^ 24 mod 2 ^ 8) with zd
    by (subst x; Z.div_mod_to_equations; lia).
  replace (x / 2 ^ 8 / 2 ^ 8 mod 2 ^ 8) with zc
    by (subst x; Z.div_mod_to_equations; lia).
  replace (x * 2 ^ 8 / 2 ^ 16 mod 2 ^ 8) with zb
    by (subst x; Z.div_mod_to_equations; lia).
  replace (x * 2 ^ 24 / 2 ^ 24 mod 2 ^ 8) with za
    by (subst x; Z.div_mod_to_equations; lia).
  rewrite (lor_shiftl_add zd) by lia.
  rewrite (lor_shiftl_add _ zb) by lia.
  rewrite (lor_shiftl_add _ za) by lia.
  lia.
Qed.

Lemma bswap64_bytes a b c d e f g h :
  bswap64 (load_le [a; b; c; d; e; f; g; h])
  = load_le [h; g; f; e; d; c; b; a].
Proof.
  unfold bswap64, shl. cbn [load_le].
  pose proof (byte_to_Z_range a). pose proof (byte_to_Z_range b).
  pose proof (byte_to_Z_range c). pose proof (byte_to_Z_range d).
  pose proof (byte_to_Z_range e). pose proof (byte_to_Z_range f).
  pose proof (byte_to_Z_range g). pose proof (byte_to_Z_range h).
  set (za := byte_to_Z a) in *. set (zb := byte_to_Z b) in *.
  set (zc := byte_to_Z c) in *. set (zd := byte_to_Z d) in *.
  set (ze := byte_to_Z e) in *. set (zf := byte_to_Z f) in *.
  set (zg := byte_to_Z g) in *. set (zh := byte_to_Z h) in *.
  set (x := za + 256 * _).
  change 0xFF00 with (Z.shiftl 255 8).
  change 0xFF0000 with (Z.shiftl 255 16).
  change 0xFF000000 with (Z.shiftl 255 24).
  change 0xFF00000000 with (Z.shiftl 255 32).
  change 0xFF0000000000 with (Z.shiftl 255 40).
  change 0xFF000000000000 with (Z.shiftl 255 48).
  change 0xFF00000000000000 with (Z.shiftl 255 56).
  rewrite !land_mask_mod by lia. rewrite !land_mask_byte by lia.
  change 255 with (Z.ones 8). rewrite !Z.land_ones by lia.
  rewrite !Z.shiftr_div_pow2 by lia. rewrite !(Z.shiftl_mul_pow2 x) by lia.
  replace (x / 2 ^ 56 mod 2 ^ 8) with zh
    by (subst x; Z.div_mod_to_equations; lia).
  replace (x / 2 ^ 40 / 2 ^ 8 mod 2 ^ 8) with zg
    by (subst x; Z.div_mod_to_equations; lia).
  replace (x / 2 ^ 24 / 2 ^ 16 mod 2 ^ 8) with zf
    by (subst x; Z.div_mod_to_equations; lia).
  replace (x / 2 ^ 8 / 2 ^ 24 mod 2 ^ 8) with ze
    by (subst x; Z.div_mod_to_equations; lia).
  replace (x * 2 ^ 8 / 2 ^ 32 mod 2 ^ 8) with zd
    by (subst x; Z.div_mod_to_equations; lia).
  replace (x * 2 ^ 24 / 2 ^ 40 mod 2 ^ 8) with zc
    by (subst x; Z.div_mod_to_equations; lia).
  replace (x * 2 ^ 40 / 2 ^ 48 mod 2 ^ 8) with zb
    by (subst x; Z.div_mod_to_equations; lia).
  replace (x * 2 ^ 56 / 2 ^ 56 mod 2 ^ 8) with za
    by (subst x; Z.div_mod_to_equations; lia).
  rewrite (lor_shiftl_add zh) by lia.
  rewrite (lor_shiftl_add _ zf) by lia.
  rewrite (lor_shiftl_add _ ze) by lia.
  rewrite (lor_shiftl_add _ zd) by lia.
  rewrite (lor_shiftl_add _ zc) by lia.
  rewrite (lor_shiftl_add _ zb) by lia.
  rewrite (lor_shiftl_add _ za) by lia.
  lia.
Qed.
End bits.

(** The generic loop reverses the bytes of the span. *)

Section swap_facts.

Lemma swap_bytes_length data i j : length (swap_bytes data i j) = length data.
Proof.
  unfold swap_bytes. destruct (data !! i), (data !! j); try done.
  by rewrite !length_insert.
Qed.

Lemma swap_bytes_lookup data i j k :
  i < length data → j < length data →
  swap_bytes data i j !! k =
    if decide (k = j) then data !! i
    else if decide (k = i) then data !! j else data !! k.
Proof.
  intros Hi Hj. unfold swap_bytes.
  destruct (lookup_lt_is_Some_2 data i Hi) as [a Ha].
  destruct (lookup_lt_is_Some_2 data j Hj) as [b Hb].
  rewrite Ha, Hb. repeat case_decide; subst.
  - rewrite list_lookup_insert_eq; [done|]. by rewrite length_insert.
  - rewrite list_lookup_insert_ne by done.
    by rewrite list_lookup_insert_eq.
  - by rewrite !list_lookup_insert_ne.
Qed.

Lemma reverse_bytes_loop_length n i size data :
  length (reverse_bytes_loop n i size data) = length data.
Proof.
  revert i data. induction n as [|n IH]; intros i data; simpl; [done|].
  by rewrite IH, swap_bytes_length.
Qed.

Lemma reverse_bytes_loop_lookup n i size data j :
  length data = size → i + n ≤ size / 2 →
  reverse_bytes_loop n i size data !! j =
    if decide (i ≤ j < i + n ∨ size - i - n ≤ j < size - i)
    then data !! (size - 1 - j) else data !! j.
Proof.
  revert i data. induction n as [|n IH]; intros i data Hlen Hn; simpl.
  - case_decide; [lia|done].
  - assert (2 * (size / 2) ≤ size) by apply Nat.Div0.mul_div_le.
    rewrite IH by (rewrite ?swap_bytes_length; lia).
    rewrite !swap_bytes_lookup by lia.
    repeat case_decide; try lia; try done; f_equal; lia.
Qed.

Lemma reverse_bytes_reverse data size :
  length data = size → reverse_bytes data size = reverse data.
Proof.
  intros Hlen. apply list_eq. intros j. unfold reverse_bytes.
  assert (2 * (size / 2) ≤ size) by apply Nat.Div0.mul_div_le.
  rewrite reverse_bytes_loop_lookup by (done || lia).
  destruct (decide (j < size)) as [Hj|Hj].
  - rewrite reverse_lookup by lia.
    case_decide; [f_equal; lia|].
    assert (size < 2 * (size / 2) + 2).
    { pose proof (Nat.div_mod_eq size 2).
      pose proof (Nat.mod_upper_bound size 2). lia. }
    f_equal. lia.
  - rewrite (lookup_ge_None_2 (reverse data)) by (rewrite length_reverse; lia).
    case_decide; apply lookup_ge_None_2; lia.
Qed.

End swap_facts.
(** [convert_endian] reverses the bytes of an element on either host. *)

Section convert_facts.

Lemma is_little_endian_little : is_little_endian ENDIAN_LITTLE = true.
Proof. reflexivity. Qed.

Lemma is_little_endian_big : is_little_endian ENDIAN_BIG = false.
Proof. reflexivity. Qed.

Lemma store_load_host host bs : store_host host (length bs) (load_host host bs) = bs.
Proof.
  destruct host; simpl.
  - apply store_load_le.
  - unfold store_be, load_be.
    rewrite <- (length_reverse bs), store_load_le. apply reverse_involutive.
Qed.

(** A swap helper applied to the host's reading of a span, written back the
    host's way, is the reversed span. *)
Lemma bswap_host host (f : Z → Z) bs :
  f (load_le bs) = load_le (reverse bs) →
  f (load_le (reverse bs)) = load_le bs →
  store_host host (length bs) (f (load_host host bs)) = reverse bs.
Proof.
  intros Hf Hr. destruct host; simpl.
  - rewrite Hf, <- (length_reverse bs). apply store_load_le.
  - unfold store_be, load_be. by rewrite Hr, store_load_le.
Qed.

Lemma convert_endian_reverse host elem size :
  length elem = size → convert_endian host elem size = reverse elem.
Proof.
  intros Hlen. unfold convert_endian.
  destruct size as [|[|[|[|[|[|[|[|[|]]]]]]]]];
    try (by apply reverse_bytes_reverse).
  - destruct elem as [|a [|b [|]]]; try done.
    apply (bswap_host host bswap16 [a; b]); apply bswap16_bytes.
  - destruct elem as [|a [|b [|c [|d [|]]]]]; try done.
    apply (bswap_host host bswap32 [a; b; c; d]); apply bswap32_bytes.
  - destruct elem as [|a [|b [|c [|d [|e [|f [|g [|h [|]]]]]]]]]; try done.
    apply (bswap_host host bswap64 [a; b; c; d; e; f; g; h]);
      apply bswap64_bytes.
Qed.

Lemma convert_endian_length host elem size :
  length elem = size → length (convert_endian host elem size) = size.
Proof.
  intros Hlen. rewrite convert_endian_reverse by done. by rewrite length_reverse.
Qed.

End convert_facts.
(** Overwriting part of a list. *)

Section splice_facts.
Implicit Types l bs : list byte.

Lemma length_splice l off bs :
  off + length bs ≤ length l → length (splice l off bs) = length l.
Proof.
  intros H. unfold splice. rewrite !length_app, length_take, length_drop. lia.
Qed.

Lemma take_splice_before l off bs k :
  k ≤ off → off ≤ length l → take k (splice l off bs) = take k l.
Proof.
  intros Hk Hoff. unfold splice.
  rewrite take_app_le by (rewrite length_take; lia).
  rewrite take_take. f_equal. lia.
Qed.

Lemma take_splice_end l off bs :
  off ≤ length l → take (off + length bs) (splice l off bs) = take off l ++ bs.
Proof.
  intros Hoff. unfold splice. rewrite app_assoc.
  apply take_app_length'. rewrite length_app, length_take. lia.
Qed.

Lemma drop_splice_start l off bs :
  off ≤ length l → drop off (splice l off bs) = bs ++ drop (off + length bs) l.
Proof.
  intros Hoff. unfold splice. apply drop_app_length'.
  rewrite length_take. lia.
Qed.

Lemma drop_splice_after l off bs k :
  off + length bs ≤ k → off ≤ length l →
  drop k (splice l off bs) = drop k l.
Proof.
  intros Hk Hoff. unfold splice. rewrite app_assoc.
  rewrite drop_app_ge by (rewrite length_app, length_take; lia).
  rewrite length_app, length_take, drop_drop. f_equal. lia.
Qed.

Lemma load_splice l off bs :
  off ≤ length l → take (length bs) (drop off (splice l off bs)) = bs.
Proof.
  intros Hoff. rewrite drop_splice_start by done. apply take_app_length.
Qed.

Lemma splice_splice l off bs bs' :
  length bs = length bs' → off + length bs ≤ length l →
  splice (splice l off bs) off bs' = splice l off bs'.
Proof.
  intros Hlen Hoff. unfold splice at 1.
  rewrite take_splice_before by lia.
  rewrite drop_splice_after by lia. done.
Qed.

Lemma splice_same l off n :
  off + n ≤ length l → splice l off (take n (drop off l)) = l.
Proof.
  intros H. unfold splice.
  rewrite length_take, length_drop, Nat.min_l by lia.
  rewrite <- (drop_drop l n off), app_assoc.
  rewrite <- (take_drop off l) at 4.
  rewrite <- (take_drop n (drop off l)) at 3. by rewrite app_assoc.
Qed.

End splice_facts.

Section memory_facts.

Lemma mem_load_Some m p n :
  p.2 + n ≤ length (region_bytes m p.1) →
  mem_load m p n = Some (take n (drop p.2 (region_bytes m p.1))).
Proof.
  intros H. unfold mem_load.
  destruct (Nat.leb_spec (p.2 + n) (length (region_bytes m p.1))); [done|lia].
Qed.

Lemma mem_store_Some m p bs :
  p.2 + length bs ≤ length (region_bytes m p.1) →
  mem_store m p bs = Some (region_set m p.1 (splice (region_bytes m p.1) p.2 bs)).
Proof.
  intros H. unfold mem_store.
  destruct (Nat.leb_spec (p.2 + length bs) (length (region_bytes m p.1)));
    [done|lia].
Qed.

Lemma mem_load_length m p n bs : mem_load m p n = Some bs → length bs = n.
Proof.
  unfold mem_load.
  destruct (Nat.leb_spec (p.2 + n) (length (region_bytes m p.1))); [|done].
  intros [= <-]. rewrite length_take, length_drop. lia.
Qed.

(** Converting an element in place reverses its span and nothing else. *)
Lemma convert_endian_at_spec host m p size :
  p.2 + size ≤ length (region_bytes m p.1) →
  convert_endian_at host m p size =
    Some (region_set m p.1
      (splice (region_bytes m p.1) p.2
         (reverse (take size (drop p.2 (region_bytes m p.1)))))).
Proof.
  intros H. unfold convert_endian_at. rewrite mem_load_Some by done. simpl.
  assert (Hl : length (take size (drop p.2 (region_bytes m p.1))) = size)
    by (rewrite length_take, length_drop; lia).
  rewrite convert_endian_reverse by done.
  rewrite mem_store_Some by (rewrite length_reverse; lia). done.
Qed.

End memory_facts.

(** Per-element reversal. *)

Section rev_elems_facts.
Implicit Types bs : list byte.

Lemma length_rev_elems n size bs :
  n * size ≤ length bs → length (rev_elems n size bs) = n * size.
Proof.
  revert bs. induction n as [|n IH]; intros bs H; simpl in *; [done|].
  rewrite length_app, length_reverse, length_take, IH
    by (rewrite length_drop; lia). lia.
Qed.

Lemma rev_elems_add n k size bs :
  rev_elems (n + k) size bs
  = rev_elems n size bs ++ rev_elems k size (drop (n * size) bs).
Proof.
  revert bs. induction n as [|n IH]; intros bs; simpl; [done|].
  rewrite IH, drop_drop, <- app_assoc. done.
Qed.

Lemma rev_elems_app n size bs bs' :
  length bs = n * size → rev_elems n size (bs ++ bs') = rev_elems n size bs.
Proof.
  revert bs. induction n as [|n IH]; intros bs H; simpl in *; [done|].
  rewrite take_app_le, drop_app_le by lia.
  rewrite IH by (rewrite length_drop; lia). done.
Qed.

Lemma rev_elems_involutive n size bs :
  length bs = n * size → rev_elems n size (rev_elems n size bs) = bs.
Proof.
  revert bs. induction n as [|n IH]; intros bs H; simpl in *.
  - symmetry. by apply nil_length_inv.
  - assert (Hl : length (reverse (take size bs)) = size)
      by (rewrite length_reverse, length_take; lia).
    rewrite take_app_length', drop_app_length' by done.
    rewrite reverse_involutive, IH by (rewrite length_drop; lia).
    apply take_drop.
Qed.

Lemma rev_elems_one n bs : length bs = n → rev_elems n 1 bs = bs.
Proof.
  revert bs. induction n as [|n IH]; intros bs H; simpl.
  - symmetry. by apply nil_length_inv.
  - destruct bs as [|b bs]; [done|]. simpl in *.
    rewrite drop_0, IH by lia. done.
Qed.

End rev_elems_facts.

Section fill_facts.

Lemma load_splice' (l : list byte) off bs n :
  n = length bs → off ≤ length l →
  take n (drop off (splice l off bs)) = bs.
Proof. intros -> H. by apply load_splice. Qed.

Lemma bind_Some {A B} (x : A) (f : A → option B) : Some x ≫= f = f x.
Proof. reflexivity. Qed.

(** The copy-and-swap loop: the scratch buffer receives the reversed
    elements, the caller's array is only read. *)
Lemma fill_loop_spec host n i offset size d buf :
  (i + n) * size ≤ length buf →
  (offset + i + n) * size ≤ length d →
  fill_loop host n i offset size (Memory d buf) =
    Some (Memory d
      (take (i * size) buf
       ++ rev_elems n size (drop ((offset + i) * size) d)
       ++ drop ((i + n) * size) buf)).
Proof.
  revert i buf. induction n as [|n IH]; intros i buf Hb Hd.
  - simpl. rewrite Nat.add_0_r, take_drop. done.
  - cbn [fill_loop]. unfold memcpy.
    rewrite mem_load_Some by (simpl; lia). rewrite bind_Some.
    cbn [fst snd region_bytes m_data].
    set (e := take size (drop ((offset + i) * size) d)).
    assert (He : length e = size)
      by (subst e; rewrite length_take, length_drop; lia).
    rewrite mem_store_Some by (simpl; lia).
    cbn [fst snd region_bytes region_set m_data m_buffer].
    rewrite bind_Some, convert_endian_at_spec
      by (simpl; rewrite length_splice; lia).
    cbn [fst snd region_bytes region_set m_data m_buffer].
    rewrite bind_Some.
    replace (take size (drop (i * size) (splice buf (i * size) e))) with e
      by (symmetry; apply load_splice'; lia).
    rewrite splice_splice by (rewrite ?length_reverse; lia).
    rewrite IH by (rewrite ?length_splice; rewrite ?length_reverse; lia).
    do 2 f_equal.
    assert (Hr : length (reverse e) = size) by (by rewrite length_reverse).
    replace (S i * size) with (i * size + length (reverse e)) by lia.
    rewrite take_splice_end by lia.
    rewrite drop_splice_after by lia.
    cbn [rev_elems]. fold e. rewrite drop_drop, <- !app_assoc.
    replace ((offset + S i) * size) with ((offset + i) * size + size) by lia.
    replace ((S i + n) * size) with ((i + S n) * size) by lia. done.
Qed.

Lemma fill_batch_spec host batch offset size d buf :
  batch * size ≤ length buf →
  (offset + batch) * size ≤ length d →
  fill_batch host batch offset size (Memory d buf) =
    Some (Memory d
      (rev_elems batch size (drop (offset * size) d)
       ++ drop (batch * size) buf)).
Proof.
  intros Hb Hd. unfold fill_batch.
  rewrite fill_loop_spec by (simpl; lia).
  rewrite Nat.add_0_r. done.
Qed.

End fill_facts.

(** ** The write path *)

Section write_loop_facts.

Lemma concat_swap_calls n block_elems size remaining bs :
  1 ≤ block_elems → remaining ≤ n →
  concat (swap_calls n block_elems size remaining bs)
  = rev_elems remaining size bs.
Proof.
  intros Hb. revert remaining bs.
  induction n as [|n IH]; intros remaining bs Hn.
  - by replace remaining with 0 by lia.
  - cbn [swap_calls]. destruct (Nat.eqb_spec remaining 0) as [->|Hne]; [done|].
    cbn [concat]. rewrite IH by lia.
    rewrite <- rev_elems_add. f_equal. lia.
Qed.

Lemma write_loop_unfold host fuel offset num size block_elems st :
  write_loop host (S fuel) offset num size block_elems st =
    if offset <? num then
      let batch :=
        if num - offset <? block_elems then num - offset else block_elems in
      match fill_batch host batch offset size (ws_mem st) with
      | None => Fault
      | Some m =>
        match mem_load m (Scratch, 0) (size * batch) with
        | None => Fault
        | Some bs =>
          let '(n, f) := fwrite bs size batch (ws_file st) in
          if negb (n =? batch) then Returned (-1) (WState f m)
          else write_loop host fuel (offset + batch) num size block_elems
                 (WState f m)
        end
      end
    else Returned 0 st.
Proof. reflexivity. Qed.

(** With no room for a single element in the scratch buffer the loop makes
    no progress: every iteration issues an empty [fwrite] and leaves
    [offset] where it was. *)
Lemma write_loop_stalls host fuel offset num size calls room m :
  offset < num →
  write_loop host fuel offset num size 0 (WState (OStream calls room) m)
  = Running (WState (OStream (calls ++ replicate fuel []) room) m).
Proof.
  intros Hlt. revert calls.
  induction fuel as [|fuel IH]; intros calls.
  - simpl. by rewrite app_nil_r.
  - cbn [write_loop].
    destruct (Nat.ltb_spec offset num); [|lia].
    destruct (Nat.ltb_spec (num - offset) 0); [lia|].
    cbn [fill_batch fill_loop ws_mem ws_file].
    rewrite Nat.mul_0_r.
    rewrite mem_load_Some by (simpl; lia).
    unfold fwrite. cbn [o_calls o_room fst snd].
    rewrite Nat.mul_0_r, Nat.min_0_l, Nat.sub_0_r, take_0.
    rewrite Nat.Div0.div_0_l. cbn [Nat.eqb negb].
    rewrite Nat.add_0_r, IH, <- app_assoc. done.
Qed.

(** When at least one element fits the scratch buffer and the sink has
    room, the loop returns 0 once every element has been written, in batches
    of [min remaining block_elems] elements. *)
Lemma write_loop_returns host n offset num size block_elems calls room d buf :
  1 ≤ size → 1 ≤ block_elems →
  block_elems * size ≤ length buf →
  num * size ≤ length d →
  offset ≤ num →
  (num - offset) * size ≤ room →
  num - offset ≤ n →
  ∃ buf',
    write_loop host (S n) offset num size block_elems
      (WState (OStream calls room) (Memory d buf))
    = Returned 0
        (WState
           (OStream
              (calls ++ swap_calls n block_elems size (num - offset)
                          (drop (offset * size) d))
              (room - (num - offset) * size))
           (Memory d buf'))
    ∧ length buf' = length buf.
Proof.
  intros Hsize Hblock Hbuf Hd. revert offset calls room buf Hbuf.
  induction n as [|n IH]; intros offset calls room buf Hbuf Hoff Hroom Hn.
  - exists buf. cbn [write_loop].
    destruct (Nat.ltb_spec offset num); [lia|].
    replace (num - offset) with 0 by lia. simpl.
    by rewrite app_nil_r, Nat.sub_0_r.
  - rewrite write_loop_unfold. cbn [swap_calls].
    destruct (Nat.ltb_spec offset num) as [Hlt|Hge].
    2:{ exists buf. replace (num - offset) with 0 by lia. simpl.
        by rewrite app_nil_r, Nat.sub_0_r. }
    destruct (Nat.eqb_spec (num - offset) 0) as [|_]; [lia|].
    set (batch := if num - offset <? block_elems then num - offset
                  else block_elems).
    assert (Hbatch : batch = (num - offset) `min` block_elems).
    { subst batch. destruct (Nat.ltb_spec (num - offset) block_elems); lia. }
    assert (1 ≤ batch ∧ batch ≤ block_elems ∧ offset + batch ≤ num)
      as (Hb1 & Hb2 & Hb3) by lia.
    assert (batch * size ≤ length buf) by nia.
    assert ((offset + batch) * size ≤ length d) by nia.
    cbn [ws_mem ws_file]. rewrite fill_batch_spec by done.
    set (elems := rev_elems batch size (drop (offset * size) d)).
    assert (Hel : length elems = batch * size).
    { subst elems. apply length_rev_elems. rewrite length_drop. nia. }
    rewrite mem_load_Some
      by (cbn [fst snd region_bytes m_buffer];
          rewrite length_app, length_drop; lia).
    cbn [fst snd region_bytes m_buffer]. rewrite drop_0.
    rewrite (Nat.mul_comm size batch), take_app_length' by done.
    unfold fwrite. cbn [o_calls o_room].
    assert (batch * size ≤ room) by nia.
    rewrite (Nat.mul_comm size batch), Nat.min_l by done.
    rewrite Nat.div_mul by lia. rewrite Nat.eqb_refl. cbn [negb].
    rewrite take_ge by lia.
    destruct (IH (offset + batch) (calls ++ [elems]) (room - batch * size)
                (elems ++ drop (batch * size) buf))
      as (buf' & -> & Hlen).
    + rewrite length_app, length_drop. lia.
    + lia.
    + nia.
    + lia.
    + exists buf'. split.
      * rewrite <- Hbatch. fold elems.
        rewrite <- app_assoc, drop_drop. cbn [app].
        replace (num - (offset + batch)) with (num - offset - batch) by lia.
        replace ((offset + batch) * size) with (offset * size + batch * size)
          by lia.
        do 3 f_equal. nia.
      * rewrite Hlen, length_app, length_drop. lia.
Qed.

End write_loop_facts.

Section write_endian_facts.

(** The scratch buffer absorbs every write of the loop: whatever the sink
    does and however long the loop runs, no access leaves an object and the
    caller's array keeps its bytes. *)
Lemma write_loop_preserves_data host fuel offset num size block_elems f d buf :
  block_elems * size ≤ length buf →
  num * size ≤ length d →
  offset ≤ num →
  ∃ f' buf',
    outcome_state
      (write_loop host fuel offset num size block_elems
         (WState f (Memory d buf)))
    = Some (WState f' (Memory d buf'))
    ∧ length buf' = length buf.
Proof.
  intros Hbuf Hd. revert offset f buf Hbuf.
  induction fuel as [|fuel IH]; intros offset f buf Hbuf Hoff.
  - by exists f, buf.
  - rewrite write_loop_unfold.
    destruct (Nat.ltb_spec offset num) as [Hlt|Hge]; [|by exists f, buf].
    set (batch := if num - offset <? block_elems then num - offset
                  else block_elems).
    assert (batch ≤ block_elems ∧ offset + batch ≤ num) as [Hb1 Hb2].
    { subst batch. destruct (Nat.ltb_spec (num - offset) block_elems); lia. }
    assert (batch * size ≤ length buf) by nia.
    assert ((offset + batch) * size ≤ length d) by nia.
    cbn [ws_mem ws_file]. cbv zeta. rewrite fill_batch_spec by done.
    set (elems := rev_elems batch size (drop (offset * size) d)).
    assert (Hel : length elems = batch * size).
    { subst elems. apply length_rev_elems. rewrite length_drop. nia. }
    assert (Hlen : length (elems ++ drop (batch * size) buf) = length buf)
      by (rewrite length_app, length_drop; lia).
    rewrite mem_load_Some by (cbn [fst snd region_bytes m_buffer]; lia).
    destruct (fwrite _ size batch f) as [n f'].
    destruct (negb (n =? batch)).
    + by exists f', (elems ++ drop (batch * size) buf).
    + destruct (IH (offset + batch) f' (elems ++ drop (batch * size) buf))
        as (f'' & buf' & -> & Hlen'); [lia|lia|].
      exists f'', buf'. split; [done|lia].
Qed.

Lemma swap_needed_eqb host target :
  (is_little_endian host && endian_eqb target ENDIAN_BIG)
  || (negb (is_little_endian host) && endian_eqb target ENDIAN_LITTLE)
  = negb (endian_eqb host target).
Proof. by destruct host, target. Qed.

Lemma write_endian_invalid host alloc fuel file data num size target :
  file = None ∨ data = None ∨ size = 0 ∨ num = 0 →
  write_endian host alloc fuel file data num size target
  = Returned (-1) (file, data).
Proof.
  intros H. unfold write_endian.
  destruct file as [f|], data as [d|]; try done.
  destruct H as [?|[?|[->| ->]]]; try done.
  by rewrite orb_true_r.
Qed.

(** The fast path. *)
Lemma write_endian_fast host alloc fuel f d num size target :
  size ≠ 0 → num ≠ 0 → endian_eqb host target = true →
  write_endian host alloc fuel (Some f) (Some d) num size target =
    match mem_load (Memory d []) (Caller, 0) (size * num) with
    | None => Fault
    | Some bs =>
      let '(n, f') := fwrite bs size num f in
      Returned (if (n =? num)%nat then 0 else -1) (Some f', Some d)
    end.
Proof.
  intros Hs Hn Heq. unfold write_endian.
  destruct (Nat.eqb_spec size 0); [done|].
  destruct (Nat.eqb_spec num 0); [done|].
  cbn [orb]. rewrite swap_needed_eqb, Heq. done.
Qed.

(** The swap path. *)
Lemma write_endian_swap host alloc fuel f d num size target :
  size ≠ 0 → num ≠ 0 → endian_eqb host target = false →
  write_endian host alloc fuel (Some f) (Some d) num size target =
    match alloc with
    | None => Returned (-1) (Some f, Some d)
    | Some buffer =>
      outcome_map (λ st, (Some (ws_file st), Some (m_data (ws_mem st))))
        (write_loop host fuel 0 num size (buffer_size / size)
           (WState f (Memory d buffer)))
    end.
Proof.
  intros Hs Hn Heq. unfold write_endian.
  destruct (Nat.eqb_spec size 0); [done|].
  destruct (Nat.eqb_spec num 0); [done|].
  cbn [orb]. rewrite swap_needed_eqb, Heq. done.
Qed.

(** On the swap path an element larger than the scratch buffer is never
    written: the call is still in its loop after any number of steps, with
    nothing but empty transfers behind it. *)
Lemma write_endian_large_size host buffer fuel calls room d num size target :
  num ≠ 0 → buffer_size < size → endian_eqb host target = false →
  write_endian host (Some buffer) fuel (Some (OStream calls room)) (Some d)
    num size target
  = Running (Some (OStream (calls ++ replicate fuel []) room), Some d).
Proof.
  intros Hn Hs Heq. rewrite write_endian_swap by (done || lia).
  rewrite Nat.div_small by done.
  rewrite write_loop_stalls by lia. done.
Qed.

(** On the swap path, when an element fits the scratch buffer and the sink
    has room, the call returns 0 with every element written byte-reversed. *)
Lemma write_endian_swap_returns host buffer n calls room d num size target :
  1 ≤ size ≤ buffer_size → 1 ≤ num →
  length buffer = buffer_size → num * size ≤ length d →
  num * size ≤ room → num ≤ n →
  endian_eqb host target = false →
  write_endian host (Some buffer) (S n) (Some (OStream calls room)) (Some d)
    num size target
  = Returned 0
      (Some (OStream (calls ++ swap_calls n (buffer_size / size) size num d)
               (room - num * size)),
       Some d).
Proof.
  intros Hs Hn Hbuf Hd Hroom Hfuel Heq.
  rewrite write_endian_swap by (done || lia).
  assert (1 ≤ buffer_size / size)
    by (apply Nat.div_le_lower_bound; lia).
  assert (buffer_size / size * size ≤ length buffer).
  { rewrite Hbuf, Nat.mul_comm. apply Nat.Div0.mul_div_le. }
  destruct (write_loop_returns host n 0 num size (buffer_size / size)
              calls room d buffer) as (buf' & -> & _); try lia.
  cbn [outcome_map ws_file ws_mem m_data]. rewrite Nat.sub_0_r.
  change (0 * size) with 0. by rewrite drop_0.
Qed.

Lemma write_endian_swap_bytes host buffer n calls room d num size target :
  1 ≤ size ≤ buffer_size → 1 ≤ num →
  length buffer = buffer_size → num * size ≤ length d →
  num * size ≤ room → num ≤ n →
  endian_eqb host target = false →
  ∃ f',
    write_endian host (Some buffer) (S n) (Some (OStream calls room)) (Some d)
      num size target
    = Returned 0 (Some f', Some d)
    ∧ o_bytes f' = concat calls ++ rev_elems num size d.
Proof.
  intros Hs Hn Hbuf Hd Hroom Hfuel Heq.
  eexists. split; [by apply write_endian_swap_returns|].
  unfold o_bytes. cbn [o_calls]. rewrite concat_app. f_equal.
  apply concat_swap_calls; [|done].
  apply Nat.div_le_lower_bound; lia.
Qed.

(** On the fast path the call is one [fwrite] of the caller's bytes. *)
Lemma write_endian_fast_spec host alloc fuel f d num size target :
  1 ≤ size → 1 ≤ num → num * size ≤ length d →
  endian_eqb host target = true →
  write_endian host alloc fuel (Some f) (Some d) num size target
  = Returned
      (if ((fwrite (take (num * size) d) size num f).1 =? num)%nat
       then 0 else -1)
      (Some (fwrite (take (num * size) d) size num f).2, Some d).
Proof.
  intros Hs Hn Hd Heq. rewrite write_endian_fast by (done || lia).
  rewrite mem_load_Some by (simpl; lia). simpl region_bytes. cbn [snd].
  rewrite drop_0, (Nat.mul_comm size num).
  by destruct (fwrite (take (num * size) d) size num f).
Qed.

Lemma fwrite_count bs size nmemb f : (fwrite bs size nmemb f).1 ≤ nmemb.
Proof.
  unfold fwrite. cbn [fst]. destruct size as [|size]; [simpl; lia|].
  apply Nat.Div0.div_le_upper_bound. lia.
Qed.

Lemma fwrite_calls bs size nmemb f :
  o_calls (fwrite bs size nmemb f).2
  = o_calls f ++ [take ((size * nmemb) `min` o_room f) bs].
Proof. reflexivity. Qed.

(** A full transfer needs, and gets, room for every byte. *)
Lemma fwrite_full bs size nmemb f :
  1 ≤ size → (fwrite bs size nmemb f).1 = nmemb →
  (size * nmemb) `min` o_room f = size * nmemb.
Proof.
  unfold fwrite. cbn [fst]. intros Hs Hn.
  destruct (Nat.min_spec (size * nmemb) (o_room f)) as [[_ ->]|[Hlt Hmin]];
    [done|].
  rewrite Hmin in *.
  assert (size * (o_room f / size) ≤ o_room f) by apply Nat.Div0.mul_div_le.
  assert (o_room f < size * S (o_room f / size))
    by (apply Nat.mul_succ_div_gt; lia).
  nia.
Qed.

End write_endian_facts.
(** ** The read path *)

Section read_facts.

Lemma splice_splice_adjacent (l a b : list byte) off :
  off + length a + length b ≤ length l →
  splice (splice l off a) (off + length a) b = splice l off (a ++ b).
Proof.
  intros H. unfold splice at 1.
  rewrite take_splice_end by lia.
  rewrite drop_splice_after by lia.
  unfold splice. rewrite length_app, <- !app_assoc.
  do 3 f_equal. f_equal. lia.
Qed.

Lemma host_elems_length swap n size bs :
  n * size ≤ length bs → length (host_elems swap n size bs) = n * size.
Proof.
  intros H. unfold host_elems. destruct swap.
  - by apply length_rev_elems.
  - rewrite length_take. lia.
Qed.

Lemma host_elems_S swap n size bs :
  host_elems swap (S n) size bs
  = host_elems swap 1 size bs ++ host_elems swap n size (drop size bs).
Proof.
  unfold host_elems. destruct swap.
  - simpl. by rewrite app_nil_r.
  - rewrite Nat.mul_1_l. by rewrite take_take_drop.
Qed.

Lemma host_elems_app swap n size bs bs' :
  length bs = n * size →
  host_elems swap n size (bs ++ bs') = host_elems swap n size bs.
Proof.
  intros H. unfold host_elems. destruct swap.
  - by apply rev_elems_app.
  - rewrite take_app_le by lia. done.
Qed.

Lemma fread_full size (s : istream) :
  size ≤ length s → fread 1 size s = (size, take size s, drop size s).
Proof.
  intros H. unfold fread. rewrite Nat.mul_1_l, Nat.min_l, Nat.div_1_r by done.
  done.
Qed.

Lemma fread_short size (s : istream) :
  length s < size → fread 1 size s = (length s, s, []).
Proof.
  intros H. unfold fread. rewrite Nat.mul_1_l, Nat.min_r, Nat.div_1_r by lia.
  by rewrite take_ge, drop_ge.
Qed.

(** One element read in full: it lands at index [i], converted. *)
Lemma read_loop_step host swap n i size s d :
  size ≤ length s → (i + 1) * size ≤ length d →
  read_loop host swap (S n) i size (RState s (Memory d []))
  = read_loop host swap n (S i) size
      (RState (drop size s)
         (Memory (splice d (i * size) (host_elems swap 1 size s)) [])).
Proof.
  intros Hs Hd. cbn [read_loop rs_mem rs_file].
  rewrite mem_load_Some by (simpl; lia).
  rewrite fread_full by done.
  assert (He : length (take size s) = size) by (rewrite length_take; lia).
  rewrite mem_store_Some by (simpl; lia).
  rewrite Nat.eqb_refl. cbn [negb fst snd region_bytes region_set m_data m_buffer].
  unfold host_elems. destruct swap.
  - rewrite convert_endian_at_spec
      by (simpl; rewrite length_splice; lia).
    cbn [fst snd region_bytes region_set m_data m_buffer].
    rewrite load_splice' by lia.
    rewrite splice_splice by (rewrite ?length_reverse; lia).
    simpl rev_elems. by rewrite app_nil_r.
  - by rewrite Nat.mul_1_l.
Qed.

(** A stream holding every element: the call fills the destination. *)
Lemma read_loop_returns host swap n i size s d :
  n * size ≤ length s → (i + n) * size ≤ length d →
  read_loop host swap n i size (RState s (Memory d []))
  = Returned 0
      (RState (drop (n * size) s)
         (Memory (splice d (i * size) (host_elems swap n size s)) [])).
Proof.
  revert i s d. induction n as [|n IH]; intros i s d Hs Hd.
  - cbn [read_loop]. rewrite drop_0. do 3 f_equal.
    unfold host_elems, splice. destruct swap.
    + simpl. rewrite Nat.add_0_r. by rewrite take_drop.
    + rewrite take_0. simpl. rewrite Nat.add_0_r. by rewrite take_drop.
  - rewrite read_loop_step by lia.
    assert (He : length (host_elems swap 1 size s) = size).
    { rewrite host_elems_length; lia. }
    rewrite IH by (rewrite ?length_drop, ?length_splice; lia).
    rewrite drop_drop. do 3 f_equal.
    rewrite (host_elems_S swap n).
    replace (S i * size) with (i * size + length (host_elems swap 1 size s))
      by lia.
    apply splice_splice_adjacent.
    rewrite (host_elems_length swap n) by (rewrite length_drop; lia). lia.
Qed.

(** A stream that ends inside element [q]: the call fails there, the [q]
    elements before are in place and the bytes that were transferred for the
    failing element overwrite its first bytes. *)
Lemma read_loop_short host swap n i size q full rest d :
  length full = q * size → length rest < size → q < n →
  (i + n) * size ≤ length d →
  read_loop host swap n i size (RState (full ++ rest) (Memory d []))
  = Returned (-1)
      (RState []
         (Memory (splice d (i * size) (host_elems swap q size full ++ rest))
            [])).
Proof.
  revert n i full d. induction q as [|q IH]; intros n i full d Hf Hr Hq Hd.
  - destruct n as [|n]; [lia|].
    apply nil_length_inv in Hf as ->. cbn [app read_loop rs_mem rs_file].
    rewrite mem_load_Some by (simpl; lia).
    rewrite fread_short by done.
    rewrite mem_store_Some by (simpl; lia).
    destruct (Nat.eqb_spec (length rest) size); [lia|]. cbn [negb].
    do 3 f_equal. unfold host_elems. by destruct swap.
  - destruct n as [|n]; [lia|].
    rewrite read_loop_step by (rewrite ?length_app; lia).
    assert (He : length (host_elems swap 1 size (full ++ rest)) = size).
    { rewrite host_elems_length; rewrite ?length_app; lia. }
    rewrite drop_app_le by lia.
    rewrite IH by (rewrite ?length_drop, ?length_splice; lia).
    do 3 f_equal.
    rewrite <- (host_elems_app swap (S q) size full rest) by done.
    rewrite (host_elems_S swap q), drop_app_le by lia.
    rewrite (host_elems_app swap q size (drop size full) rest)
      by (rewrite length_drop; lia).
    replace (S i * size)
      with (i * size + length (host_elems swap 1 size (full ++ rest))) by lia.
    rewrite <- app_assoc. apply splice_splice_adjacent.
    rewrite length_app, (host_elems_length swap q)
      by (rewrite length_drop; lia).
    rewrite He. nia.
Qed.

Lemma read_endian_invalid host file data num size source :
  file = None ∨ data = None ∨ size = 0 →
  read_endian host file data num size source = Returned (-1) (file, data).
Proof.
  intros H. unfold read_endian.
  destruct file as [f|], data as [d|]; try done.
  by destruct H as [?|[?| ->]].
Qed.

Lemma read_endian_valid host f d num size source :
  size ≠ 0 →
  read_endian host (Some f) (Some d) num size source =
    outcome_map (λ st, (Some (rs_file st), Some (m_data (rs_mem st))))
      (read_loop host (negb (endian_eqb host source)) num 0 size
         (RState f (Memory d []))).
Proof.
  intros Hs. unfold read_endian.
  destruct (Nat.eqb_spec size 0); [done|].
  by rewrite swap_needed_eqb.
Qed.

Lemma read_endian_returns host s d num size source :
  1 ≤ size → num * size ≤ length s → length d = num * size →
  read_endian host (Some s) (Some d) num size source
  = Returned 0
      (Some (drop (num * size) s),
       Some (host_elems (negb (endian_eqb host source)) num size s)).
Proof.
  intros Hs Hlen Hd. rewrite read_endian_valid by lia.
  rewrite read_loop_returns by (simpl; lia).
  cbn [outcome_map rs_file rs_mem m_data]. do 3 f_equal.
  unfold splice. rewrite host_elems_length by done.
  rewrite take_0, drop_ge by lia. by rewrite app_nil_r.
Qed.

End read_facts.
(** ** Round trips and host independence, for elements that fit the
    scratch buffer *)

Section round_trip.

Lemma host_elems_involutive swap n size bs :
  length bs = n * size →
  host_elems swap n size (host_elems swap n size bs) = bs.
Proof.
  intros H. unfold host_elems. destruct swap.
  - by apply rev_elems_involutive.
  - rewrite take_take, Nat.min_id. apply take_ge. lia.
Qed.

(** What a successful write leaves on an empty stream. *)
Lemma write_endian_bytes host buffer n room d num size order :
  1 ≤ size → 1 ≤ num →
  endian_eqb host order = true ∨ size ≤ buffer_size →
  length buffer = buffer_size → length d = num * size →
  num * size ≤ room → num ≤ n →
  ∃ f',
    write_endian host (Some buffer) (S n) (Some (OStream [] room)) (Some d)
      num size order
    = Returned 0 (Some f', Some d)
    ∧ o_bytes f' = host_elems (negb (endian_eqb host order)) num size d.
Proof.
  intros Hs Hn Hfit Hbuf Hd Hroom Hfuel.
  destruct (endian_eqb host order) eqn:Heq.
  - rewrite write_endian_fast_spec by (done || lia).
    eexists. split.
    + unfold fwrite. cbn [fst snd o_room o_calls].
      rewrite (Nat.mul_comm size num), Nat.min_l, Nat.div_mul by lia.
      rewrite Nat.eqb_refl. done.
    + unfold o_bytes. cbn [o_calls negb host_elems app concat].
      rewrite app_nil_r, take_take. f_equal. lia.
  - destruct Hfit as [|Hfit]; [done|].
    destruct (write_endian_swap_bytes host buffer n [] room d num size order)
      as (f' & -> & Hb); try (done || lia).
    exists f'. split; [done|]. by rewrite Hb.
Qed.

(** X20: writing an array and reading the stream back in the same order
    on the same host returns 0 twice and gives the array, for every element
    size that fits the scratch buffer, and for every element size when the
    order is the host's. *)
Lemma round_trip host buffer n room d d0 num size order :
  1 ≤ size → 1 ≤ num →
  endian_eqb host order = true ∨ size ≤ buffer_size →
  length buffer = buffer_size → length d = num * size →
  length d0 = num * size →
  num * size ≤ room → num ≤ n →
  ∃ f',
    write_endian host (Some buffer) (S n) (Some (OStream [] room)) (Some d)
      num size order
    = Returned 0 (Some f', Some d)
    ∧ read_endian host (Some (o_bytes f')) (Some d0) num size order
      = Returned 0 (Some [], Some d).
Proof.
  intros Hs Hn Hfit Hbuf Hd Hd0 Hroom Hfuel.
  destruct (write_endian_bytes host buffer n room d num size order)
    as (f' & Hw & Hb); try done.
  exists f'. split; [done|].
  assert (Hl : length (o_bytes f') = num * size)
    by (rewrite Hb; apply host_elems_length; lia).
  rewrite read_endian_returns by lia.
  rewrite drop_ge by lia. rewrite Hb, host_elems_involutive by done. done.
Qed.

Lemma round_trip_witness :
  ∃ f',
    write_endian ENDIAN_LITTLE (Some (replicate 256 x00)) 3
      (Some (OStream [] 6)) (Some [x11; x22; x33; x44; x55; x66]) 2 3
      ENDIAN_BIG
    = Returned 0 (Some f', Some [x11; x22; x33; x44; x55; x66])
    ∧ read_endian ENDIAN_LITTLE (Some (o_bytes f'))
        (Some [x00; x00; x00; x00; x00; x00]) 2 3 ENDIAN_BIG
      = Returned 0 (Some [], Some [x11; x22; x33; x44; x55; x66]).
Proof.
  apply (round_trip ENDIAN_LITTLE (replicate 256 x00) 2 6
           [x11; x22; x33; x44; x55; x66] [x00; x00; x00; x00; x00; x00]
           2 3 ENDIAN_BIG);
    try (simpl; lia); try reflexivity.
  right. unfold buffer_size. lia.
Defined.

Lemma rev_elems_store_le size vs :
  rev_elems (length vs) size (concat (map (store_le size) vs))
  = concat (map (store_be size) vs).
Proof.
  induction vs as [|v vs IH]; [done|].
  cbn [map concat length rev_elems].
  rewrite take_app_length', drop_app_length' by (by rewrite store_le_length).
  by rewrite IH.
Qed.

Lemma rev_elems_store_be size vs :
  rev_elems (length vs) size (concat (map (store_be size) vs))
  = concat (map (store_le size) vs).
Proof.
  induction vs as [|v vs IH]; [done|].
  cbn [map concat length rev_elems].
  assert (Hl : length (store_be size v) = size)
    by (unfold store_be; by rewrite length_reverse, store_le_length).
  rewrite take_app_length', drop_app_length', IH by done.
  unfold store_be. by rewrite reverse_involutive.
Qed.

Lemma length_array_bytes host size vs :
  length (array_bytes host size vs) = length vs * size.
Proof.
  unfold array_bytes. induction vs as [|v vs IH]; [done|].
  cbn [map concat length]. rewrite length_app, IH.
  destruct host; simpl; unfold store_be;
    rewrite ?length_reverse, store_le_length; lia.
Qed.

(** The stream image of an array of values depends on the requested order
    only, not on the host. *)
Lemma host_elems_array_bytes host order size vs :
  host_elems (negb (endian_eqb host order)) (length vs) size
    (array_bytes host size vs)
  = array_bytes order size vs.
Proof.
  unfold host_elems, array_bytes.
  destruct host, order; cbn [endian_eqb negb store_host].
  - apply take_ge. fold (array_bytes ENDIAN_LITTLE size vs).
    by rewrite length_array_bytes.
  - apply rev_elems_store_le.
  - apply rev_elems_store_be.
  - apply take_ge. fold (array_bytes ENDIAN_BIG size vs).
    by rewrite length_array_bytes.
Qed.

Lemma write_endian_host_independent host buffer n room vs size order :
  1 ≤ size → vs ≠ [] →
  endian_eqb host order = true ∨ size ≤ buffer_size →
  length buffer = buffer_size →
  length vs * size ≤ room → length vs ≤ n →
  ∃ f',
    write_endian host (Some buffer) (S n) (Some (OStream [] room))
      (Some (array_bytes host size vs)) (length vs) size order
    = Returned 0 (Some f', Some (array_bytes host size vs))
    ∧ o_bytes f' = array_bytes order size vs.
Proof.
  intros Hs Hvs Hfit Hbuf Hroom Hfuel.
  assert (1 ≤ length vs) by (destruct vs; [done|simpl; lia]).
  destruct (write_endian_bytes host buffer n room (array_bytes host size vs)
              (length vs) size order) as (f' & Hw & Hb);
    try done; [apply length_array_bytes|].
  exists f'. split; [done|]. by rewrite Hb, host_elems_array_bytes.
Qed.

(** Big-endian and little-endian images of the same values differ by the
    reversal of each element. *)
Lemma array_bytes_reversed size vs :
  array_bytes ENDIAN_BIG size vs
  = rev_elems (length vs) size (array_bytes ENDIAN_LITTLE size vs).
Proof. symmetry. apply rev_elems_store_le. Qed.

End round_trip.
(** ** The claims *)

Section claims.

Lemma outcome_state_map {A B} (g : A → B) (o : outcome A) :
  outcome_state (outcome_map g o) = g <$> outcome_state o.
Proof. by destruct o. Qed.

(** Converting an element in place twice restores the memory. *)
Lemma convert_endian_at_twice host m p size :
  p.2 + size ≤ length (region_bytes m p.1) →
  convert_endian_at host m p size
    ≫= (λ m', convert_endian_at host m' p size) = Some m.
Proof.
  intros H. rewrite convert_endian_at_spec by done. rewrite bind_Some.
  set (e := take size (drop p.2 (region_bytes m p.1))).
  assert (He : length (reverse e) = size)
    by (subst e; rewrite length_reverse, length_take, length_drop; lia).
  destruct m as [d b], p as [[] off]; cbn [fst snd region_bytes region_set
    m_data m_buffer] in *.
  - rewrite convert_endian_at_spec
      by (cbn [fst snd region_bytes m_data]; rewrite length_splice; lia).
    cbn [fst snd region_bytes region_set m_data m_buffer].
    rewrite load_splice', reverse_involutive by lia.
    rewrite splice_splice
      by (rewrite ?He; subst e; rewrite ?length_take, ?length_drop; lia).
    subst e. by rewrite splice_same.
  - rewrite convert_endian_at_spec
      by (cbn [fst snd region_bytes m_buffer]; rewrite length_splice; lia).
    cbn [fst snd region_bytes region_set m_data m_buffer].
    rewrite load_splice', reverse_involutive by lia.
    rewrite splice_splice
      by (rewrite ?He; subst e; rewrite ?length_take, ?length_drop; lia).
    subst e. by rewrite splice_same.
Qed.

(** C8: applying [convert_endian] twice to an element of any size (so for
    sizes 1, 2, 4, 8 and for odd sizes such as 3 and 5) yields the original
    bytes, and for size 1 a single application leaves the byte unchanged. *)
Theorem convert_endian_involutive host elem size :
  length elem = size →
  convert_endian host (convert_endian host elem size) size = elem
  ∧ (size = 1 → convert_endian host elem size = elem).
Proof.
  intros Hlen. split.
  - rewrite (convert_endian_reverse host elem) by done.
    rewrite convert_endian_reverse by (by rewrite length_reverse).
    apply reverse_involutive.
  - intros ->. rewrite convert_endian_reverse by done.
    by destruct elem as [|b [|]].
Qed.

Lemma convert_endian_involutive_witness :
  length [x11; x22; x33] = 3
  ∧ convert_endian ENDIAN_LITTLE
      (convert_endian ENDIAN_LITTLE [x11; x22; x33] 3) 3 = [x11; x22; x33].
Proof.
  split; [reflexivity|].
  apply (convert_endian_involutive ENDIAN_LITTLE [x11; x22; x33] 3).
  reflexivity.
Defined.

(** C5: [write_be] and [write_le] return -1 when the stream handle is
    absent, the data pointer is absent, the element size is 0 or the element
    count is 0. *)
Theorem write_rejects_invalid_arguments host alloc fuel file data num size :
  file = None ∨ data = None ∨ size = 0 ∨ num = 0 →
  write_be host alloc fuel file data num size = Returned (-1) (file, data)
  ∧ write_le host alloc fuel file data num size = Returned (-1) (file, data).
Proof. intros H. split; by apply write_endian_invalid. Qed.

Lemma write_rejects_invalid_arguments_witness :
  (Some (OStream [] 8) = None ∨ Some [x01; x02] = None ∨ 2 = 0 ∨ 0 = 0)
  ∧ write_be ENDIAN_LITTLE None 5 (Some (OStream [] 8)) (Some [x01; x02]) 0 2
    = Returned (-1) (Some (OStream [] 8), Some [x01; x02]).
Proof.
  split; [by repeat right|].
  apply (write_rejects_invalid_arguments ENDIAN_LITTLE None 5
           (Some (OStream [] 8)) (Some [x01; x02]) 0 2).
  by repeat right.
Defined.

(** C6: [read_be] and [read_le] fail when the stream handle or the
    destination pointer is absent or the size is 0; with valid arguments
    and [num = 0] they return 0 and consume no byte of the stream; whereas
    [write_be] and [write_le] return -1 for [num = 0]. *)
Theorem read_accepts_zero_count host alloc fuel (rfile : option istream)
  (wfile : option ostream) data num size :
  (rfile = None ∨ data = None ∨ size = 0 →
   read_be host rfile data num size = Returned (-1) (rfile, data)
   ∧ read_le host rfile data num size = Returned (-1) (rfile, data))
  ∧ (∀ s d, size ≠ 0 →
     read_be host (Some s) (Some d) 0 size = Returned 0 (Some s, Some d)
     ∧ read_le host (Some s) (Some d) 0 size = Returned 0 (Some s, Some d))
  ∧ write_be host alloc fuel wfile data 0 size = Returned (-1) (wfile, data)
  ∧ write_le host alloc fuel wfile data 0 size = Returned (-1) (wfile, data).
Proof.
  split; [|split; [|split]].
  - intros H. split; by apply read_endian_invalid.
  - intros s d Hs. split; unfold read_be, read_le;
      by rewrite read_endian_valid.
  - apply write_endian_invalid. by repeat right.
  - apply write_endian_invalid. by repeat right.
Qed.

Lemma read_accepts_zero_count_witness :
  read_be ENDIAN_LITTLE None (Some [x00; x00]) 1 2
    = Returned (-1) (None, Some [x00; x00])
  ∧ read_be ENDIAN_LITTLE (Some [xaa; xbb]) (Some [x00; x00]) 0 2
    = Returned 0 (Some [xaa; xbb], Some [x00; x00])
  ∧ write_be ENDIAN_LITTLE None 5 (Some (OStream [] 8)) (Some [x00; x00]) 0 2
    = Returned (-1) (Some (OStream [] 8), Some [x00; x00]).
Proof.
  pose proof (read_accepts_zero_count ENDIAN_LITTLE None 5 None
                (Some (OStream [] 8)) (Some [x00; x00]) 1 2)
    as (Hbad & Hzero & Hwrite & _).
  split; [|split].
  - apply Hbad. by left.
  - apply (Hzero [xaa; xbb] [x00; x00]). discriminate.
  - exact Hwrite.
Defined.

(** C10: a write call that fails before any I/O, on invalid arguments or on
    the allocation of the scratch buffer, leaves the stream as it was (no
    byte written, no [fwrite] issued); a read call that fails its argument
    validation leaves the destination as it was. *)
Theorem early_failure_has_no_effect host alloc fuel (wfile : option ostream)
  (rfile : option istream) data num size order :
  (wfile = None ∨ data = None ∨ size = 0 ∨ num = 0 →
   write_endian host alloc fuel wfile data num size order
   = Returned (-1) (wfile, data))
  ∧ (∀ f d, size ≠ 0 → num ≠ 0 → endian_eqb host order = false →
     write_endian host None fuel (Some f) (Some d) num size order
     = Returned (-1) (Some f, Some d))
  ∧ (rfile = None ∨ data = None ∨ size = 0 →
     read_endian host rfile data num size order
     = Returned (-1) (rfile, data)).
Proof.
  split; [|split].
  - apply write_endian_invalid.
  - intros f d Hs Hn Heq. by rewrite write_endian_swap.
  - apply read_endian_invalid.
Qed.

Lemma early_failure_has_no_effect_witness :
  write_endian ENDIAN_LITTLE None 5 (Some (OStream [[x07]] 8)) None 1 2
    ENDIAN_BIG
    = Returned (-1) (Some (OStream [[x07]] 8), None)
  ∧ write_endian ENDIAN_LITTLE None 5 (Some (OStream [[x07]] 8))
      (Some [x01; x02]) 1 2 ENDIAN_BIG
    = Returned (-1) (Some (OStream [[x07]] 8), Some [x01; x02])
  ∧ read_endian ENDIAN_LITTLE (Some [xaa; xbb]) None 1 2 ENDIAN_BIG
    = Returned (-1) (Some [xaa; xbb], None).
Proof.
  pose proof (early_failure_has_no_effect ENDIAN_LITTLE None 5
                (Some (OStream [[x07]] 8)) (Some [xaa; xbb]) None 1 2
                ENDIAN_BIG) as (Hw & Ha & Hr).
  split; [|split].
  - apply Hw. right. by left.
  - apply (Ha (OStream [[x07]] 8) [x01; x02]); discriminate || reflexivity.
  - apply Hr. right. by left.
Defined.

End claims.
Section claims_transfer.

(** C4: when the requested order is the host order, the call is a single
    [fwrite] of the caller's [num * size] bytes; it returns -1 exactly when
    that [fwrite] transfers fewer than [num] elements, and on success the
    bytes given to the stream are a verbatim copy of the input. *)
Theorem write_fast_path host alloc fuel f d num size order :
  1 ≤ size → 1 ≤ num → num * size ≤ length d →
  endian_eqb host order = true →
  ∃ n f',
    fwrite (take (num * size) d) size num f = (n, f')
    ∧ write_endian host alloc fuel (Some f) (Some d) num size order
      = Returned (if n <? num then -1 else 0) (Some f', Some d)
    ∧ (∃ chunk, o_calls f' = o_calls f ++ [chunk])
    ∧ (¬ n < num → o_calls f' = o_calls f ++ [take (num * size) d]).
Proof.
  intros Hs Hn Hd Heq.
  rewrite write_endian_fast_spec by done.
  pose proof (fwrite_count (take (num * size) d) size num f) as Hle.
  pose proof (fwrite_calls (take (num * size) d) size num f) as Hcalls.
  pose proof (fwrite_full (take (num * size) d) size num f Hs) as Hfull.
  destruct (fwrite (take (num * size) d) size num f) as [n f'].
  cbn [fst snd] in *. exists n, f'. split; [done|]. split; [|split].
  - destruct (Nat.eqb_spec n num), (Nat.ltb_spec n num); (done || lia).
  - eauto.
  - intros Hge. rewrite Hcalls, Hfull by lia.
    rewrite take_take. do 3 f_equal. lia.
Qed.

Lemma write_fast_path_witness :
  ∃ n f',
    fwrite (take (2 * 2) [x11; x22; x33; x44]) 2 2 (OStream [] 3) = (n, f')
    ∧ write_endian ENDIAN_BIG None 0 (Some (OStream [] 3))
        (Some [x11; x22; x33; x44]) 2 2 ENDIAN_BIG
      = Returned (if n <? 2 then -1 else 0) (Some f', Some [x11; x22; x33; x44])
    ∧ (∃ chunk, o_calls f' = o_calls (OStream [] 3) ++ [chunk])
    ∧ (¬ n < 2 →
       o_calls f' = o_calls (OStream [] 3) ++ [take (2 * 2) [x11; x22; x33; x44]]).
Proof.
  apply (write_fast_path ENDIAN_BIG None 0 (OStream [] 3)
           [x11; x22; x33; x44] 2 2 ENDIAN_BIG); simpl; (lia || reflexivity).
Defined.

(** C9: a write call never mutates the caller's array.  The copy-and-swap
    loop writes the reversed elements into the scratch buffer and only reads
    the source; and however the call goes (returned 0, returned -1, or still
    running) no access leaves an object and the array behind [data] holds
    its original bytes. *)
Theorem write_preserves_source host buffer fuel f d num size order :
  length buffer = buffer_size → num * size ≤ length d →
  (∀ batch offset,
     batch * size ≤ length buffer → (offset + batch) * size ≤ length d →
     fill_batch host batch offset size (Memory d buffer)
     = Some (Memory d
               (rev_elems batch size (drop (offset * size) d)
                ++ drop (batch * size) buffer)))
  ∧ ∃ f',
      outcome_state
        (write_endian host (Some buffer) fuel (Some f) (Some d) num size order)
      = Some (Some f', Some d).
Proof.
  intros Hbuf Hd. split; [intros; by apply fill_batch_spec|].
  destruct (decide (size = 0 ∨ num = 0)) as [H0|H0].
  { rewrite write_endian_invalid by tauto. by exists f. }
  destruct (endian_eqb host order) eqn:Heq.
  - rewrite write_endian_fast_spec by (done || lia). eauto.
  - rewrite write_endian_swap by (done || lia).
    rewrite outcome_state_map.
    destruct (write_loop_preserves_data host fuel 0 num size
                (buffer_size / size) f d buffer) as (f' & buf' & -> & _).
    + rewrite Hbuf, Nat.mul_comm. apply Nat.Div0.mul_div_le.
    + done.
    + lia.
    + by exists f'.
Qed.

Lemma write_preserves_source_witness :
  ∃ f',
    outcome_state
      (write_endian ENDIAN_LITTLE (Some (replicate 256 x00)) 3
         (Some (OStream [] 3)) (Some [x11; x22; x33; x44]) 2 2 ENDIAN_BIG)
    = Some (Some f', Some [x11; x22; x33; x44]).
Proof.
  apply (write_preserves_source ENDIAN_LITTLE (replicate 256 x00) 3
           (OStream [] 3) [x11; x22; x33; x44] 2 2 ENDIAN_BIG).
  - reflexivity.
  - simpl. lia.
Defined.

(** C7: the failing element of a short read is not left untouched: with one
    byte left in the stream and elements of two bytes, that byte is stored in
    the first byte of the element before the call fails. *)
Lemma read_short_overwrites_failing_element :
  read_be ENDIAN_LITTLE (Some [xaa]) (Some [x00; x00]) 1 2
  = Returned (-1) (Some [], Some [xaa; x00])
  ∧ drop (0 * 2) [xaa; x00] ≠ drop (0 * 2) [x00; x00].
Proof. split; [reflexivity|discriminate]. Qed.

(** C7, amended: when the stream ends inside element [q], after [q] whole
    elements and [length rest < size] more bytes, the call returns -1 at
    that element; the [q] elements before it hold their converted values,
    the bytes that were transferred for it occupy its first [length rest]
    bytes unconverted, and every byte after those (the rest of the failing
    element and all later elements) is as the caller supplied it. *)
Theorem read_short_stream host full rest d num size q order :
  1 ≤ size → length full = q * size → length rest < size → q < num →
  num * size ≤ length d →
  ∃ d',
    read_endian host (Some (full ++ rest)) (Some d) num size order
    = Returned (-1) (Some [], Some d')
    ∧ take (q * size) d'
      = host_elems (negb (endian_eqb host order)) q size full
    ∧ take (length rest) (drop (q * size) d') = rest
    ∧ drop (q * size + length rest) d' = drop (q * size + length rest) d.
Proof.
  intros Hs Hf Hr Hq Hd. rewrite read_endian_valid by lia.
  rewrite (read_loop_short host _ num 0 size q full rest d)
    by (done || simpl; lia).
  cbn [outcome_map rs_file rs_mem m_data]. eexists. split; [done|].
  set (he := host_elems _ q size full).
  assert (Hhe : length he = q * size)
    by (subst he; apply host_elems_length; lia).
  unfold splice. rewrite take_0, length_app, Hhe. cbn [app Nat.add Nat.mul].
  rewrite <- app_assoc. split; [|split].
  - by apply take_app_length'.
  - rewrite drop_app_length' by done. apply take_app_length.
  - rewrite app_assoc. apply drop_app_length'. rewrite length_app. lia.
Qed.

Lemma read_short_stream_witness :
  ∃ d',
    read_endian ENDIAN_LITTLE (Some ([x11; x22] ++ [x33]))
      (Some [x00; x00; x00; x00; x00; x00]) 3 2 ENDIAN_BIG
    = Returned (-1) (Some [], Some d')
    ∧ take (1 * 2) d' = host_elems (negb (endian_eqb ENDIAN_LITTLE ENDIAN_BIG))
                          1 2 [x11; x22]
    ∧ take (length [x33]) (drop (1 * 2) d') = [x33]
    ∧ drop (1 * 2 + length [x33]) d'
      = drop (1 * 2 + length [x33]) [x00; x00; x00; x00; x00; x00].
Proof.
  apply (read_short_stream ENDIAN_LITTLE [x11; x22] [x33]
           [x00; x00; x00; x00; x00; x00] 3 2 1 ENDIAN_BIG);
    simpl; (lia || reflexivity).
Defined.

(** C2: with elements of 257 bytes the scratch buffer holds no element
    ([buffer_size / 257 = 0]), every batch is empty and the batching loop
    never advances: after any number of iterations it is still running, at
    offset 0, having issued only empty writes. *)
Theorem write_loop_size_257_makes_no_progress fuel calls room d buffer :
  buffer_size / 257 = 0
  ∧ write_loop ENDIAN_LITTLE fuel 0 1 257 (buffer_size / 257)
      (WState (OStream calls room) (Memory d buffer))
    = Running
        (WState (OStream (calls ++ replicate fuel []) room) (Memory d buffer)).
Proof.
  assert (H : buffer_size / 257 = 0) by (apply Nat.div_small; unfold buffer_size; lia).
  split; [done|]. rewrite H. apply write_loop_stalls. lia.
Qed.

(** C1: an array of one element of 257 bytes is never written in the order
    that is not the host's, so there is no stream to read back: for every
    amount of fuel the call is still running and the stream holds no byte
    more. *)
Theorem write_size_257_never_returns fuel buffer calls room d :
  write_be ENDIAN_LITTLE (Some buffer) fuel (Some (OStream calls room))
    (Some d) 1 257
  = Running (Some (OStream (calls ++ replicate fuel []) room), Some d)
  ∧ write_le ENDIAN_BIG (Some buffer) fuel (Some (OStream calls room))
      (Some d) 1 257
    = Running (Some (OStream (calls ++ replicate fuel []) room), Some d)
  ∧ o_bytes (OStream (calls ++ replicate fuel []) room)
    = o_bytes (OStream calls room).
Proof.
  split; [|split].
  - apply write_endian_large_size; [lia|unfold buffer_size; lia|done].
  - apply write_endian_large_size; [lia|unfold buffer_size; lia|done].
  - unfold o_bytes. cbn [o_calls]. rewrite concat_app.
    replace (concat (replicate fuel [])) with (@nil byte);
      [by rewrite app_nil_r|].
    induction fuel as [|fuel IH]; [done|]. by simpl.
Qed.

(** C3: for one value of 257 bytes, [write_be] on a big-endian host returns
    0 with the 257 bytes on the stream, while on a little-endian host it
    never returns and puts no byte on the stream. *)
Theorem write_be_size_257_depends_on_host fuel buffer alloc room :
  write_be ENDIAN_BIG alloc fuel (Some (OStream [] (257 + room)))
    (Some (array_bytes ENDIAN_BIG 257 [0%Z])) 1 257
  = Returned 0
      (Some (OStream [array_bytes ENDIAN_BIG 257 [0%Z]] room),
       Some (array_bytes ENDIAN_BIG 257 [0%Z]))
  ∧ write_be ENDIAN_LITTLE (Some buffer) fuel (Some (OStream [] (257 + room)))
      (Some (array_bytes ENDIAN_LITTLE 257 [0%Z])) 1 257
    = Running
        (Some (OStream (replicate fuel []) (257 + room)),
         Some (array_bytes ENDIAN_LITTLE 257 [0%Z]))
  ∧ o_bytes (OStream (replicate fuel []) (257 + room)) = [].
Proof.
  split; [|split].
  - unfold write_be.
    assert (Hl : length (array_bytes ENDIAN_BIG 257 [0%Z]) = 1 * 257)
      by apply length_array_bytes.
    rewrite write_endian_fast_spec by (done || lia).
    rewrite take_ge by lia.
    unfold fwrite. cbn [fst snd o_calls o_room app].
    rewrite Nat.mul_1_r, Nat.min_l, Nat.div_same by lia.
    rewrite take_ge by lia. cbn [Nat.eqb].
    by replace (257 + room - 257) with room by lia.
  - unfold write_be.
    rewrite write_endian_large_size; [done|lia|unfold buffer_size; lia|done].
  - unfold o_bytes. cbn [o_calls].
    induction fuel as [|fuel IH]; [done|]. by simpl.
Qed.

End claims_transfer.

(** ** Further properties of the helpers *)

Section helper_properties.
Local Open Scope Z_scope.

(** A function that reverses the bytes of every [n]-byte integer maps the
    [n]-byte range to itself, reverses the stored bytes and undoes itself. *)
Lemma bswap_value_spec (n : nat) (f : Z → Z) :
  (∀ bs, length bs = n → f (load_le bs) = load_le (reverse bs)) →
  ∀ x, 0 <= x < 256 ^ Z.of_nat n →
  0 <= f x < 256 ^ Z.of_nat n
  ∧ store_le n (f x) = reverse (store_le n x)
  ∧ f (f x) = x.
Proof.
  intros Hf x Hx.
  assert (Hl : length (store_le n x) = n) by apply store_le_length.
  assert (Hxe : load_le (store_le n x) = x)
    by (rewrite load_store_le; apply Z.mod_small; lia).
  assert (Hr : length (reverse (store_le n x)) = n)
    by (by rewrite length_reverse).
  assert (Hfx : f x = load_le (reverse (store_le n x))).
  { rewrite <- Hxe at 1. by apply Hf. }
  split; [|split].
  - rewrite Hfx. pose proof (load_le_range (reverse (store_le n x))) as Hrg.
    by rewrite Hr in Hrg.
  - rewrite Hfx. pose proof (store_load_le (reverse (store_le n x))) as Hsl.
    by rewrite Hr in Hsl.
  - rewrite Hfx, Hf by done. by rewrite reverse_involutive.
Qed.

End helper_properties.

Section helper_extras.
Local Open Scope Z_scope.

(** X1: [is_little_endian] answers 1 exactly on a host that stores the
    least significant byte of a [uint16_t] at the lowest address. *)
Theorem is_little_endian_detects host :
  is_little_endian host = true ↔ host = ENDIAN_LITTLE.
Proof. destruct host; split; (done || reflexivity). Qed.

(** X2: on a 16-bit operand [bswap16] stays within 16 bits, exchanges the
    two bytes and is its own inverse. *)
Theorem bswap16_spec x :
  0 <= x < 2 ^ 16 →
  0 <= bswap16 x < 2 ^ 16
  ∧ store_le 2 (bswap16 x) = reverse (store_le 2 x)
  ∧ bswap16 (bswap16 x) = x.
Proof.
  intros Hx. apply (bswap_value_spec 2 bswap16); [|done].
  intros [|a [|b [|]]] Hl; try done. apply bswap16_bytes.
Qed.

Lemma bswap16_spec_witness :
  0 <= 0x1122 < 2 ^ 16
  ∧ 0 <= bswap16 0x1122 < 2 ^ 16
  ∧ store_le 2 (bswap16 0x1122) = reverse (store_le 2 0x1122)
  ∧ bswap16 (bswap16 0x1122) = 0x1122.
Proof. split; [lia|]. apply (bswap16_spec 0x1122). lia. Defined.

(** X3: on a 32-bit operand [bswap32] stays within 32 bits, reverses the
    four bytes and is its own inverse. *)
Theorem bswap32_spec x :
  0 <= x < 2 ^ 32 →
  0 <= bswap32 x < 2 ^ 32
  ∧ store_le 4 (bswap32 x) = reverse (store_le 4 x)
  ∧ bswap32 (bswap32 x) = x.
Proof.
  intros Hx. apply (bswap_value_spec 4 bswap32); [|done].
  intros [|a [|b [|c [|d [|]]]]] Hl; try done. apply bswap32_bytes.
Qed.

Lemma bswap32_spec_witness :
  0 <= 0x11223344 < 2 ^ 32
  ∧ 0 <= bswap32 0x11223344 < 2 ^ 32
  ∧ store_le 4 (bswap32 0x11223344) = reverse (store_le 4 0x11223344)
  ∧ bswap32 (bswap32 0x11223344) = 0x11223344.
Proof. split; [lia|]. apply (bswap32_spec 0x11223344). lia. Defined.

(** X4: on a 64-bit operand [bswap64] stays within 64 bits, reverses the
    eight bytes and is its own inverse. *)
Theorem bswap64_spec x :
  0 <= x < 2 ^ 64 →
  0 <= bswap64 x < 2 ^ 64
  ∧ store_le 8 (bswap64 x) = reverse (store_le 8 x)
  ∧ bswap64 (bswap64 x) = x.
Proof.
  intros Hx. apply (bswap_value_spec 8 bswap64); [|done].
  intros [|a [|b [|c [|d [|e [|f [|g [|h [|]]]]]]]]] Hl; try done.
  apply bswap64_bytes.
Qed.

Lemma bswap64_spec_witness :
  0 <= 0x1122334455667788 < 2 ^ 64
  ∧ 0 <= bswap64 0x1122334455667788 < 2 ^ 64
  ∧ store_le 8 (bswap64 0x1122334455667788)
    = reverse (store_le 8 0x1122334455667788)
  ∧ bswap64 (bswap64 0x1122334455667788) = 0x1122334455667788.
Proof. split; [lia|]. apply (bswap64_spec 0x1122334455667788). lia. Defined.

End helper_extras.

Section reverse_extras.

Lemma reverse_bytes_loop_lookup_le n i size data j :
  size ≤ length data → i + n ≤ size / 2 →
  reverse_bytes_loop n i size data !! j =
    if decide (i ≤ j < i + n ∨ size - i - n ≤ j < size - i)
    then data !! (size - 1 - j) else data !! j.
Proof.
  revert i data. induction n as [|n IH]; intros i data Hlen Hn; simpl.
  - case_decide; [lia|done].
  - assert (2 * (size / 2) ≤ size) by apply Nat.Div0.mul_div_le.
    rewrite IH by (rewrite ?swap_bytes_length; lia).
    rewrite !swap_bytes_lookup by lia.
    repeat case_decide; try lia; try done; f_equal; lia.
Qed.

(** X5: [reverse_bytes(data, size)] reverses the first [size] bytes of the
    buffer and leaves every byte after them where it was. *)
Theorem reverse_bytes_prefix data size :
  size ≤ length data →
  reverse_bytes data size = reverse (take size data) ++ drop size data.
Proof.
  intros Hlen. apply list_eq. intros j. unfold reverse_bytes.
  assert (2 * (size / 2) ≤ size) by apply Nat.Div0.mul_div_le.
  assert (size < 2 * (size / 2) + 2).
  { pose proof (Nat.div_mod_eq size 2).
    pose proof (Nat.mod_upper_bound size 2). lia. }
  rewrite reverse_bytes_loop_lookup_le by (done || lia).
  assert (Hlt : length (reverse (take size data)) = size)
    by (rewrite length_reverse, length_take; lia).
  destruct (decide (j < size)) as [Hj|Hj].
  - rewrite lookup_app_l by lia.
    rewrite reverse_lookup by (rewrite length_take; lia).
    rewrite length_take, Nat.min_l by lia.
    rewrite lookup_take_lt by lia.
    case_decide; f_equal; lia.
  - rewrite lookup_app_r by lia. rewrite Hlt, lookup_drop.
    case_decide; [lia|]. f_equal. lia.
Qed.

Lemma reverse_bytes_prefix_witness :
  3 ≤ length [x11; x22; x33; x44; x55]
  ∧ reverse_bytes [x11; x22; x33; x44; x55] 3
    = reverse (take 3 [x11; x22; x33; x44; x55])
      ++ drop 3 [x11; x22; x33; x44; x55].
Proof.
  split; [simpl; lia|].
  apply (reverse_bytes_prefix [x11; x22; x33; x44; x55] 3). simpl. lia.
Defined.

(** X6: [convert_endian] reverses the bytes of the element whatever its
    size and whatever the host: the integer paths for 2, 4 and 8 bytes and
    the generic loop agree, and the length is kept. *)
Theorem convert_endian_is_reversal host elem size :
  length elem = size →
  convert_endian host elem size = reverse elem
  ∧ convert_endian ENDIAN_LITTLE elem size = convert_endian ENDIAN_BIG elem size
  ∧ length (convert_endian host elem size) = size.
Proof.
  intros Hlen. rewrite !convert_endian_reverse by done.
  by rewrite length_reverse.
Qed.

Lemma convert_endian_is_reversal_witness :
  length [x11; x22; x33; x44] = 4
  ∧ convert_endian ENDIAN_BIG [x11; x22; x33; x44] 4
    = reverse [x11; x22; x33; x44]
  ∧ convert_endian ENDIAN_LITTLE [x11; x22; x33; x44] 4
    = convert_endian ENDIAN_BIG [x11; x22; x33; x44] 4
  ∧ length (convert_endian ENDIAN_BIG [x11; x22; x33; x44] 4) = 4.
Proof.
  split; [reflexivity|].
  apply (convert_endian_is_reversal ENDIAN_BIG [x11; x22; x33; x44] 4).
  reflexivity.
Defined.

(** X7: converting an element in place changes the [size] bytes at the
    pointer and nothing else: the bytes before and after it in the same
    object and the other object are as they were, and the element itself is
    reversed. *)
Theorem convert_endian_at_frame host m p size :
  p.2 + size ≤ length (region_bytes m p.1) →
  ∃ m',
    convert_endian_at host m p size = Some m'
    ∧ (∀ r, r ≠ p.1 → region_bytes m' r = region_bytes m r)
    ∧ take p.2 (region_bytes m' p.1) = take p.2 (region_bytes m p.1)
    ∧ take size (drop p.2 (region_bytes m' p.1))
      = reverse (take size (drop p.2 (region_bytes m p.1)))
    ∧ drop (p.2 + size) (region_bytes m' p.1)
      = drop (p.2 + size) (region_bytes m p.1).
Proof.
  intros H. rewrite convert_endian_at_spec by done. eexists. split; [done|].
  set (l := region_bytes m p.1) in *.
  set (e := reverse (take size (drop p.2 l))).
  assert (He : length e = size)
    by (subst e; rewrite length_reverse, length_take, length_drop; lia).
  assert (Hset : region_bytes (region_set m p.1 (splice l p.2 e)) p.1
                 = splice l p.2 e) by (by destruct m, p as [[] ?]).
  rewrite Hset. split; [|split; [|split]].
  - intros r Hr. destruct m, p as [[] ?], r; done.
  - apply take_splice_before; lia.
  - apply load_splice'; lia.
  - apply drop_splice_after; lia.
Qed.

Lemma convert_endian_at_frame_witness :
  ∃ m',
    convert_endian_at ENDIAN_LITTLE
      (Memory [x01; x02; x03; x04] [x0a; x0b]) (Caller, 1) 2 = Some m'
    ∧ (∀ r, r ≠ Caller →
       region_bytes m' r
       = region_bytes (Memory [x01; x02; x03; x04] [x0a; x0b]) r)
    ∧ take 1 (region_bytes m' Caller) = take 1 [x01; x02; x03; x04]
    ∧ take 2 (drop 1 (region_bytes m' Caller))
      = reverse (take 2 (drop 1 [x01; x02; x03; x04]))
    ∧ drop (1 + 2) (region_bytes m' Caller)
      = drop (1 + 2) [x01; x02; x03; x04].
Proof.
  apply (convert_endian_at_frame ENDIAN_LITTLE
           (Memory [x01; x02; x03; x04] [x0a; x0b]) (Caller, 1) 2).
  simpl. lia.
Defined.

End reverse_extras.

(** ** Further properties of the write path *)

Section write_more.

Lemma host_elems_add swap n k size bs :
  host_elems swap (n + k) size bs
  = host_elems swap n size bs ++ host_elems swap k size (drop (n * size) bs).
Proof.
  unfold host_elems. destruct swap.
  - apply rev_elems_add.
  - rewrite take_take_drop. f_equal. lia.
Qed.

Lemma host_elems_take swap n size bs :
  host_elems swap n size (take (n * size) bs) = host_elems swap n size bs.
Proof.
  destruct (decide (n * size ≤ length bs)) as [Hle|Hgt].
  - rewrite <- (take_drop (n * size) bs) at 2.
    rewrite host_elems_app; [done|]. rewrite length_take. lia.
  - by rewrite take_ge by lia.
Qed.

(** A successful write appends the image of the array to the stream. *)
Lemma write_endian_appends host buffer n f d num size order :
  1 ≤ size → 1 ≤ num →
  endian_eqb host order = true ∨ size ≤ buffer_size →
  length buffer = buffer_size → num * size ≤ length d →
  num * size ≤ o_room f → num ≤ n →
  ∃ f',
    write_endian host (Some buffer) (S n) (Some f) (Some d) num size order
    = Returned 0 (Some f', Some d)
    ∧ o_bytes f' = o_bytes f
                   ++ host_elems (negb (endian_eqb host order)) num size d
    ∧ o_room f' = o_room f - num * size.
Proof.
  intros Hs Hn Hfit Hbuf Hd Hroom Hfuel. destruct f as [calls room].
  cbn [o_room] in *.
  destruct (endian_eqb host order) eqn:Heq.
  - rewrite write_endian_fast_spec by (done || lia).
    unfold fwrite. cbn [fst snd o_room o_calls].
    rewrite (Nat.mul_comm size num), Nat.min_l, Nat.div_mul by lia.
    rewrite Nat.eqb_refl. eexists. split; [done|].
    unfold o_bytes. cbn [o_calls o_room negb host_elems].
    rewrite concat_app. cbn [concat]. rewrite app_nil_r, take_take, Nat.min_id.
    done.
  - destruct Hfit as [|Hfit]; [done|].
    rewrite write_endian_swap_returns by (done || lia).
    eexists. split; [done|]. unfold o_bytes. cbn [o_calls o_room negb host_elems].
    rewrite concat_app, concat_swap_calls; [done| |done].
    apply Nat.div_le_lower_bound; lia.
Qed.

(** The batches of the swap path: whole elements, never more than the
    scratch buffer holds. *)
Lemma swap_calls_bounded n block_elems size remaining bs :
  1 ≤ block_elems → remaining * size ≤ length bs →
  Forall (λ c, ∃ b, 1 ≤ b ≤ block_elems ∧ length c = b * size)
    (swap_calls n block_elems size remaining bs).
Proof.
  intros Hb. revert remaining bs.
  induction n as [|n IH]; intros remaining bs Hlen; cbn [swap_calls].
  - constructor.
  - destruct (Nat.eqb_spec remaining 0); [constructor|].
    constructor.
    + exists (remaining `min` block_elems). split; [lia|].
      apply length_rev_elems. nia.
    + apply IH. rewrite length_drop. nia.
Qed.

Lemma swap_calls_count n block_elems size remaining bs :
  1 ≤ block_elems → remaining ≤ n →
  length (swap_calls n block_elems size remaining bs)
  = if remaining =? 0 then 0 else (remaining - 1) / block_elems + 1.
Proof.
  intros Hb. revert remaining bs.
  induction n as [|n IH]; intros remaining bs Hn; cbn [swap_calls].
  - by replace remaining with 0 by lia.
  - destruct (Nat.eqb_spec remaining 0) as [|Hne]; [done|].
    cbn [length]. rewrite IH by lia.
    destruct (decide (remaining ≤ block_elems)) as [Hle|Hgt].
    + rewrite Nat.min_l by lia. rewrite Nat.sub_diag. cbn [Nat.eqb].
      rewrite Nat.div_small by lia. done.
    + rewrite Nat.min_r by lia.
      destruct (Nat.eqb_spec (remaining - block_elems) 0); [lia|].
      replace (remaining - 1)
        with (remaining - block_elems - 1 + 1 * block_elems) by lia.
      rewrite Nat.div_add by lia. lia.
Qed.

(** X8: on the swap path, when an element fits the scratch buffer and the
    sink has room, the call returns 0 after [(num - 1) / (256 / size) + 1]
    calls of [fwrite], each of a whole number of elements and of at most
    256 bytes, which together append the element-reversed array. *)
Theorem write_swap_batches host buffer n calls room d num size order :
  1 ≤ size ≤ buffer_size → 1 ≤ num →
  length buffer = buffer_size → num * size ≤ length d →
  num * size ≤ room → num ≤ n →
  endian_eqb host order = false →
  ∃ new,
    write_endian host (Some buffer) (S n) (Some (OStream calls room)) (Some d)
      num size order
    = Returned 0 (Some (OStream (calls ++ new) (room - num * size)), Some d)
    ∧ concat new = rev_elems num size d
    ∧ length new = (num - 1) / (buffer_size / size) + 1
    ∧ Forall (λ c, length c ≤ buffer_size ∧ length c `mod` size = 0) new.
Proof.
  intros Hs Hn Hbuf Hd Hroom Hfuel Heq.
  assert (Hblock : 1 ≤ buffer_size / size)
    by (apply Nat.div_le_lower_bound; lia).
  assert (Hfits : buffer_size / size * size ≤ buffer_size)
    by (rewrite Nat.mul_comm; apply Nat.Div0.mul_div_le).
  rewrite write_endian_swap_returns by done.
  eexists. split; [done|]. split; [|split].
  - by apply concat_swap_calls.
  - rewrite swap_calls_count by done.
    destruct (Nat.eqb_spec num 0); [lia|done].
  - eapply Forall_impl; [apply swap_calls_bounded; done|].
    intros c (b & Hb & ->). split; [nia|]. apply Nat.Div0.mod_mul.
Qed.

Lemma write_swap_batches_witness :
  ∃ new,
    write_endian ENDIAN_LITTLE (Some (replicate 256 x00)) 3
      (Some (OStream [] 400)) (Some (replicate 400 x01)) 2 200 ENDIAN_BIG
    = Returned 0
        (Some (OStream ([] ++ new) (400 - 2 * 200)), Some (replicate 400 x01))
    ∧ concat new = rev_elems 2 200 (replicate 400 x01)
    ∧ length new = (2 - 1) / (buffer_size / 200) + 1
    ∧ Forall (λ c, length c ≤ buffer_size ∧ length c `mod` 200 = 0) new.
Proof.
  apply (write_swap_batches ENDIAN_LITTLE (replicate 256 x00) 2 [] 400
           (replicate 400 x01) 2 200 ENDIAN_BIG);
    try (unfold buffer_size; lia); try reflexivity;
    rewrite length_replicate; lia.
Defined.

End write_more.

Section write_failure.

(** The loop against a sink that fills up: it stops at the first short
    [fwrite], with exactly the bytes the sink accepted on the stream. *)
Lemma write_loop_short host n offset num size block_elems calls room d buf :
  1 ≤ size → 1 ≤ block_elems →
  block_elems * size ≤ length buf →
  num * size ≤ length d →
  offset ≤ num →
  room < (num - offset) * size →
  num - offset ≤ n →
  ∃ calls' buf',
    write_loop host (S n) offset num size block_elems
      (WState (OStream calls room) (Memory d buf))
    = Returned (-1) (WState (OStream calls' 0) (Memory d buf'))
    ∧ concat calls'
      = concat calls
        ++ take room (rev_elems (num - offset) size (drop (offset * size) d)).
Proof.
  intros Hsize Hblock Hbuf Hd. revert offset calls room buf Hbuf.
  induction n as [|n IH]; intros offset calls room buf Hbuf Hoff Hroom Hn.
  - replace (num - offset) with 0 in Hroom by lia. simpl in Hroom. lia.
  - rewrite write_loop_unfold.
    destruct (Nat.ltb_spec offset num) as [Hlt|Hge].
    2:{ replace (num - offset) with 0 in Hroom by lia. simpl in Hroom. lia. }
    set (batch := if num - offset <? block_elems then num - offset
                  else block_elems).
    assert (Hbatch : batch = (num - offset) `min` block_elems).
    { subst batch. destruct (Nat.ltb_spec (num - offset) block_elems); lia. }
    assert (1 ≤ batch ∧ batch ≤ block_elems ∧ offset + batch ≤ num)
      as (Hb1 & Hb2 & Hb3) by lia.
    assert (batch * size ≤ length buf) by nia.
    assert ((offset + batch) * size ≤ length d) by nia.
    cbn [ws_mem ws_file]. cbv zeta. rewrite fill_batch_spec by done.
    set (elems := rev_elems batch size (drop (offset * size) d)).
    assert (Hel : length elems = batch * size).
    { subst elems. apply length_rev_elems. rewrite length_drop. nia. }
    assert (Hall : rev_elems (num - offset) size (drop (offset * size) d)
                   = elems
                     ++ rev_elems (num - (offset + batch)) size
                          (drop ((offset + batch) * size) d)).
    { replace (num - offset) with (batch + (num - (offset + batch))) at 1
        by lia.
      rewrite rev_elems_add, drop_drop. subst elems. do 3 f_equal. lia. }
    rewrite mem_load_Some
      by (cbn [fst snd region_bytes m_buffer];
          rewrite length_app, length_drop; lia).
    cbn [fst snd region_bytes m_buffer]. rewrite drop_0.
    rewrite (Nat.mul_comm size batch), take_app_length' by done.
    unfold fwrite. cbn [o_calls o_room].
    rewrite (Nat.mul_comm size batch).
    destruct (decide (batch * size ≤ room)) as [Hfull|Hshort].
    + rewrite Nat.min_l, Nat.div_mul by lia.
      rewrite Nat.eqb_refl. cbn [negb]. rewrite take_ge by lia.
      destruct (IH (offset + batch) (calls ++ [elems]) (room - batch * size)
                  (elems ++ drop (batch * size) buf))
        as (calls' & buf' & -> & Hc).
      * rewrite length_app, length_drop. lia.
      * lia.
      * nia.
      * lia.
      * exists calls', buf'. split; [done|].
        rewrite Hc, Hall, concat_app. cbn [concat].
        rewrite app_nil_r, <- app_assoc. f_equal.
        rewrite take_app_ge by lia. by rewrite Hel.
    + rewrite Nat.min_r by lia.
      assert (room / size < batch)
        by (apply Nat.Div0.div_lt_upper_bound; lia).
      destruct (Nat.eqb_spec (room / size) batch); [lia|]. cbn [negb].
      rewrite Nat.sub_diag. eexists _, _. split; [done|].
      rewrite concat_app. cbn [concat]. rewrite app_nil_r, Hall.
      rewrite take_app_le by lia. done.
Qed.

(** X9: when the sink accepts fewer than [num * size] bytes the call
    returns -1, and the stream has received exactly as many bytes of the
    array's image as the sink accepted: a prefix in the requested order,
    with no rollback. *)
Theorem write_short_sink host buffer n f d num size order :
  1 ≤ size → 1 ≤ num →
  endian_eqb host order = true ∨ size ≤ buffer_size →
  length buffer = buffer_size → num * size ≤ length d →
  o_room f < num * size → num ≤ n →
  ∃ f',
    write_endian host (Some buffer) (S n) (Some f) (Some d) num size order
    = Returned (-1) (Some f', Some d)
    ∧ o_bytes f'
      = o_bytes f
        ++ take (o_room f)
             (host_elems (negb (endian_eqb host order)) num size d)
    ∧ o_room f' = 0.
Proof.
  intros Hs Hn Hfit Hbuf Hd Hroom Hfuel. destruct f as [calls room].
  cbn [o_room] in *.
  destruct (endian_eqb host order) eqn:Heq.
  - rewrite write_endian_fast_spec by (done || lia).
    unfold fwrite. cbn [fst snd o_room o_calls].
    rewrite (Nat.mul_comm size num), Nat.min_r by lia.
    assert (room / size < num)
      by (apply Nat.Div0.div_lt_upper_bound; lia).
    destruct (Nat.eqb_spec (room / size) num); [lia|].
    eexists. split; [done|]. split; [|cbn [o_room]; lia].
    unfold o_bytes. cbn [o_calls negb host_elems].
    rewrite concat_app. cbn [concat]. by rewrite app_nil_r.
  - destruct Hfit as [|Hfit]; [done|].
    rewrite write_endian_swap by (done || lia).
    assert (1 ≤ buffer_size / size)
      by (apply Nat.div_le_lower_bound; lia).
    assert (buffer_size / size * size ≤ length buffer).
    { rewrite Hbuf, Nat.mul_comm. apply Nat.Div0.mul_div_le. }
    destruct (write_loop_short host n 0 num size (buffer_size / size)
                calls room d buffer) as (calls' & buf' & -> & Hc); try lia.
    cbn [outcome_map ws_file ws_mem m_data]. eexists. split; [done|].
    split; [|done]. unfold o_bytes. cbn [o_calls negb host_elems].
    rewrite Hc, Nat.sub_0_r. change (0 * size) with 0. by rewrite drop_0.
Qed.

Lemma write_short_sink_witness :
  ∃ f',
    write_endian ENDIAN_LITTLE (Some (replicate 256 x00)) 3
      (Some (OStream [] 5)) (Some [x11; x22; x33; x44; x55; x66; x77; x88])
      2 4 ENDIAN_BIG
    = Returned (-1) (Some f', Some [x11; x22; x33; x44; x55; x66; x77; x88])
    ∧ o_bytes f'
      = o_bytes (OStream [] 5)
        ++ take (o_room (OStream [] 5))
             (host_elems (negb (endian_eqb ENDIAN_LITTLE ENDIAN_BIG)) 2 4
                [x11; x22; x33; x44; x55; x66; x77; x88])
    ∧ o_room f' = 0.
Proof.
  apply (write_short_sink ENDIAN_LITTLE (replicate 256 x00) 2 (OStream [] 5)
           [x11; x22; x33; x44; x55; x66; x77; x88] 2 4 ENDIAN_BIG);
    try (simpl; lia); try reflexivity.
  right. unfold buffer_size. lia.
Defined.

(** The loop never puts on the stream a byte that is not the next byte of
    the element-reversed array. *)
Lemma write_loop_prefix host fuel offset num size block_elems f d buf :
  1 ≤ size →
  block_elems * size ≤ length buf →
  num * size ≤ length d →
  offset ≤ num →
  ∃ f' buf' k,
    (write_loop host fuel offset num size block_elems
       (WState f (Memory d buf))
     = Returned 0 (WState f' (Memory d buf')) ∧ k = (num - offset) * size
     ∨ write_loop host fuel offset num size block_elems
         (WState f (Memory d buf))
       = Returned (-1) (WState f' (Memory d buf'))
       ∧ k < (num - offset) * size
     ∨ write_loop host fuel offset num size block_elems
         (WState f (Memory d buf))
       = Running (WState f' (Memory d buf'))
       ∧ k ≤ (num - offset) * size)
    ∧ o_bytes f'
      = o_bytes f
        ++ take k (rev_elems (num - offset) size (drop (offset * size) d)).
Proof.
  intros Hsize Hbuf Hd. revert offset f buf Hbuf.
  induction fuel as [|fuel IH]; intros offset f buf Hbuf Hoff.
  - exists f, buf, 0. split; [right; right; split; [done|apply Nat.le_0_l]|].
    by rewrite take_0, app_nil_r.
  - rewrite write_loop_unfold.
    destruct (Nat.ltb_spec offset num) as [Hlt|Hge].
    2:{ exists f, buf, 0. replace (num - offset) with 0 by lia.
        split; [by left|]. by rewrite take_0, app_nil_r. }
    set (batch := if num - offset <? block_elems then num - offset
                  else block_elems).
    assert (batch ≤ block_elems ∧ offset + batch ≤ num) as [Hb1 Hb2].
    { subst batch. destruct (Nat.ltb_spec (num - offset) block_elems); lia. }
    assert (batch * size ≤ length buf) by nia.
    assert ((offset + batch) * size ≤ length d) by nia.
    cbn [ws_mem ws_file]. cbv zeta. rewrite fill_batch_spec by done.
    set (elems := rev_elems batch size (drop (offset * size) d)).
    assert (Hel : length elems = batch * size).
    { subst elems. apply length_rev_elems. rewrite length_drop. nia. }
    assert (Hall : rev_elems (num - offset) size (drop (offset * size) d)
                   = elems
                     ++ rev_elems (num - (offset + batch)) size
                          (drop ((offset + batch) * size) d)).
    { replace (num - offset) with (batch + (num - (offset + batch))) at 1
        by lia.
      rewrite rev_elems_add, drop_drop. subst elems. do 3 f_equal. lia. }
    rewrite mem_load_Some
      by (cbn [fst snd region_bytes m_buffer];
          rewrite length_app, length_drop; lia).
    cbn [fst snd region_bytes m_buffer]. rewrite drop_0.
    rewrite (Nat.mul_comm size batch), take_app_length' by done.
    unfold fwrite. rewrite (Nat.mul_comm size batch).
    set (k0 := (batch * size) `min` o_room f).
    assert (Hk0 : k0 ≤ batch * size) by lia.
    destruct (Nat.eqb_spec (k0 / size) batch) as [Hfull|Hshort]; cbn [negb].
    + assert (batch * size ≤ k0).
      { rewrite <- Hfull, Nat.mul_comm. apply Nat.Div0.mul_div_le. }
      destruct (IH (offset + batch)
                  (OStream (o_calls f ++ [take k0 elems]) (o_room f - k0))
                  (elems ++ drop (batch * size) buf))
        as (f' & buf' & k & Hcase & Hbytes).
      * rewrite length_app, length_drop. lia.
      * lia.
      * exists f', buf', (batch * size + k). split.
        -- destruct Hcase as [[-> ->]|[[-> Hk]|[-> Hk]]].
           ++ left. split; [done|nia].
           ++ right. left. split; [done|nia].
           ++ right. right. split; [done|nia].
        -- rewrite Hbytes, Hall. unfold o_bytes at 1. cbn [o_calls].
           rewrite concat_app. cbn [concat].
           rewrite app_nil_r, take_ge by lia.
           rewrite <- app_assoc. f_equal.
           rewrite take_app_ge by lia. rewrite Hel. do 2 f_equal. lia.
    + assert (k0 < batch * size).
      { destruct (decide (k0 = batch * size)) as [He|]; [|lia].
        rewrite He, Nat.div_mul in Hshort by lia. done. }
      eexists _, _, k0. split; [right; left; split; [done|nia]|].
      unfold o_bytes at 1. cbn [o_calls].
      rewrite concat_app. cbn [concat]. rewrite app_nil_r, Hall.
      rewrite take_app_le by lia. done.
Qed.

(** X10: at every point of a write call (returned or still running, for
    any element size) the bytes put on the stream are a prefix of the
    array's image in the requested order; the prefix is the whole image
    exactly when the call returns 0, and a proper prefix when it returns
    -1. *)
Theorem write_stream_is_prefix host buffer fuel f d num size order :
  1 ≤ size → 1 ≤ num →
  length buffer = buffer_size → num * size ≤ length d →
  ∃ f' k,
    (write_endian host (Some buffer) fuel (Some f) (Some d) num size order
     = Returned 0 (Some f', Some d) ∧ k = num * size
     ∨ write_endian host (Some buffer) fuel (Some f) (Some d) num size order
       = Returned (-1) (Some f', Some d) ∧ k < num * size
     ∨ write_endian host (Some buffer) fuel (Some f) (Some d) num size order
       = Running (Some f', Some d) ∧ k ≤ num * size)
    ∧ o_bytes f'
      = o_bytes f
        ++ take k (host_elems (negb (endian_eqb host order)) num size d).
Proof.
  intros Hs Hn Hbuf Hd.
  destruct (endian_eqb host order) eqn:Heq.
  - rewrite write_endian_fast_spec by (done || lia).
    unfold fwrite. cbn [fst snd]. rewrite (Nat.mul_comm size num).
    set (k := (num * size) `min` o_room f).
    assert (Hk : k ≤ num * size) by lia.
    eexists _, k. split.
    + destruct (Nat.eqb_spec (k / size) num) as [Hfull|Hshort].
      * left. split; [done|].
        assert (num * size ≤ k); [|lia].
        rewrite <- Hfull, Nat.mul_comm. apply Nat.Div0.mul_div_le.
      * right. left. split; [done|].
        destruct (decide (k = num * size)) as [He|]; [|lia].
        rewrite He, Nat.div_mul in Hshort by lia. done.
    + unfold o_bytes. cbn [o_calls negb host_elems].
      rewrite concat_app. cbn [concat]. by rewrite app_nil_r.
  - rewrite write_endian_swap by (done || lia).
    destruct (write_loop_prefix host fuel 0 num size (buffer_size / size)
                f d buffer) as (f' & buf' & k & Hcase & Hbytes); try lia.
    { rewrite Hbuf, Nat.mul_comm. apply Nat.Div0.mul_div_le. }
    exists f', k. rewrite Nat.sub_0_r in *. change (0 * size) with 0 in Hbytes.
    rewrite drop_0 in Hbytes. split; [|done].
    destruct Hcase as [[-> ->]|[[-> Hk]|[-> Hk]]].
    + by left.
    + right. by left.
    + right. by right.
Qed.

Lemma write_stream_is_prefix_witness :
  ∃ f' k,
    (write_endian ENDIAN_LITTLE (Some (replicate 256 x00)) 1
       (Some (OStream [] 9)) (Some (replicate 257 x01)) 1 257 ENDIAN_BIG
     = Returned 0 (Some f', Some (replicate 257 x01)) ∧ k = 1 * 257
     ∨ write_endian ENDIAN_LITTLE (Some (replicate 256 x00)) 1
         (Some (OStream [] 9)) (Some (replicate 257 x01)) 1 257 ENDIAN_BIG
       = Returned (-1) (Some f', Some (replicate 257 x01)) ∧ k < 1 * 257
     ∨ write_endian ENDIAN_LITTLE (Some (replicate 256 x00)) 1
         (Some (OStream [] 9)) (Some (replicate 257 x01)) 1 257 ENDIAN_BIG
       = Running (Some f', Some (replicate 257 x01)) ∧ k ≤ 1 * 257)
    ∧ o_bytes f'
      = o_bytes (OStream [] 9)
        ++ take k (host_elems (negb (endian_eqb ENDIAN_LITTLE ENDIAN_BIG))
                     1 257 (replicate 257 x01)).
Proof.
  apply (write_stream_is_prefix ENDIAN_LITTLE (replicate 256 x00) 1
           (OStream [] 9) (replicate 257 x01) 1 257 ENDIAN_BIG);
    try lia; try reflexivity.
Defined.

(** The loop returns nothing but 0 and -1. *)
Lemma write_loop_return_codes host fuel offset num size block_elems st rc st' :
  write_loop host fuel offset num size block_elems st = Returned rc st' →
  rc = 0%Z ∨ rc = (-1)%Z.
Proof.
  revert offset st. induction fuel as [|fuel IH]; intros offset st; [done|].
  rewrite write_loop_unfold.
  destruct (offset <? num); [|intros [= <- _]; by left].
  cbv zeta.
  destruct (fill_batch _ _ _ _ _) as [m|]; [|done].
  destruct (mem_load _ _ _) as [bs|]; [|done].
  destruct (fwrite _ _ _ _) as [n f].
  destruct (negb _); [intros [= <- _]; by right|]. apply IH.
Qed.

Lemma read_loop_return_codes host swap n i size st rc st' :
  read_loop host swap n i size st = Returned rc st' →
  rc = 0%Z ∨ rc = (-1)%Z.
Proof.
  revert i st. induction n as [|n IH]; intros i st.
  - intros [= <- _]. by left.
  - cbn [read_loop].
    destruct (mem_load _ _ _) as [?|]; [|done].
    destruct (fread _ _ _) as [[cnt bs] f].
    destruct (mem_store _ _ _) as [m1|]; [|done].
    destruct (negb _); [intros [= <- _]; by right|].
    destruct swap; [|apply IH].
    destruct (convert_endian_at _ _ _ _) as [m2|]; [|done]. apply IH.
Qed.

(** X17: whenever one of the four public functions returns, it returns 0
    or -1, whatever its arguments. *)
Theorem return_codes host alloc fuel wfile rfile data num size rc :
  (∀ w, write_be host alloc fuel wfile data num size = Returned rc w →
        rc = 0%Z ∨ rc = (-1)%Z)
  ∧ (∀ w, write_le host alloc fuel wfile data num size = Returned rc w →
          rc = 0%Z ∨ rc = (-1)%Z)
  ∧ (∀ w, read_be host rfile data num size = Returned rc w →
          rc = 0%Z ∨ rc = (-1)%Z)
  ∧ (∀ w, read_le host rfile data num size = Returned rc w →
          rc = 0%Z ∨ rc = (-1)%Z).
Proof.
  assert (Hw : ∀ order w,
    write_endian host alloc fuel wfile data num size order = Returned rc w →
    rc = 0%Z ∨ rc = (-1)%Z).
  { intros order w. unfold write_endian.
    destruct wfile as [f|], data as [d|]; try (intros [= <- _]; by right).
    destruct (_ || _); [intros [= <- _]; by right|]. cbv zeta.
    destruct (negb _).
    - destruct (mem_load _ _ _) as [bs|]; [|done].
      destruct (fwrite _ _ _ _) as [n f'].
      destruct (n =? num); intros [= <- _]; [by left|by right].
    - destruct alloc as [buffer|]; [|intros [= <- _]; by right].
      destruct (write_loop _ _ _ _ _ _ _) as [rc' st'| |] eqn:Hl; try done.
      intros [= <- _]. by apply write_loop_return_codes in Hl. }
  assert (Hr : ∀ order w,
    read_endian host rfile data num size order = Returned rc w →
    rc = 0%Z ∨ rc = (-1)%Z).
  { intros order w. unfold read_endian.
    destruct rfile as [f|], data as [d|]; try (intros [= <- _]; by right).
    destruct (size =? 0); [intros [= <- _]; by right|]. cbv zeta.
    destruct (read_loop _ _ _ _ _ _) as [rc' st'| |] eqn:Hl; try done.
    intros [= <- _]. by apply read_loop_return_codes in Hl. }
  repeat split; intros w; (apply Hw || apply Hr).
Qed.

Lemma return_codes_witness :
  write_be ENDIAN_BIG None 0 (Some (OStream [] 4)) (Some [x01; x02; x03; x04])
    1 4
  = Returned 0
      (Some (OStream [[x01; x02; x03; x04]] 0), Some [x01; x02; x03; x04])
  ∧ (0 = 0 ∨ 0 = -1)%Z.
Proof.
  split; [reflexivity|].
  apply (proj1 (return_codes ENDIAN_BIG None 0 (Some (OStream [] 4)) None
                  (Some [x01; x02; x03; x04]) 1 4 0%Z)
           (Some (OStream [[x01; x02; x03; x04]] 0),
            Some [x01; x02; x03; x04])).
  reflexivity.
Defined.

End write_failure.

Section write_layout.

Lemma host_elems_elem swap n size bs i :
  i < n → n * size ≤ length bs →
  take size (drop (i * size) (host_elems swap n size bs))
  = if swap then reverse (take size (drop (i * size) bs))
    else take size (drop (i * size) bs).
Proof.
  intros Hi Hlen.
  replace n with (i + (1 + (n - i - 1))) by lia.
  rewrite host_elems_add, (host_elems_add swap 1).
  rewrite drop_app_length' by (rewrite host_elems_length; nia).
  rewrite take_app_length'
    by (rewrite host_elems_length; rewrite ?length_drop; nia).
  unfold host_elems. destruct swap.
  - simpl. by rewrite app_nil_r.
  - by rewrite Nat.mul_1_l.
Qed.

(** X11: a successful write appends exactly [num * size] bytes to the
    stream, with no header, padding or separator: element [i] of the array
    occupies the [size] bytes at offset [i * size] of what was appended,
    byte-reversed when the order differs from the host's and verbatim
    otherwise; the room of the sink shrinks by [num * size]. *)
Theorem write_layout host buffer n f d num size order :
  1 ≤ size → 1 ≤ num →
  endian_eqb host order = true ∨ size ≤ buffer_size →
  length buffer = buffer_size → num * size ≤ length d →
  num * size ≤ o_room f → num ≤ n →
  ∃ f',
    write_endian host (Some buffer) (S n) (Some f) (Some d) num size order
    = Returned 0 (Some f', Some d)
    ∧ take (length (o_bytes f)) (o_bytes f') = o_bytes f
    ∧ length (o_bytes f') = length (o_bytes f) + num * size
    ∧ o_room f' = o_room f - num * size
    ∧ ∀ i, i < num →
        take size (drop (length (o_bytes f) + i * size) (o_bytes f'))
        = if endian_eqb host order then take size (drop (i * size) d)
          else reverse (take size (drop (i * size) d)).
Proof.
  intros Hs Hn Hfit Hbuf Hd Hroom Hfuel.
  destruct (write_endian_appends host buffer n f d num size order)
    as (f' & Hw & Hb & Hr); try done.
  exists f'. split; [done|]. rewrite Hb. split; [|split; [|split]].
  - apply take_app_length.
  - rewrite length_app, host_elems_length by done. done.
  - done.
  - intros i Hi. rewrite <- drop_drop, drop_app_length.
    rewrite host_elems_elem by done. by destruct (endian_eqb host order).
Qed.

Lemma write_layout_witness :
  ∃ f',
    write_endian ENDIAN_LITTLE (Some (replicate 256 x00)) 3
      (Some (OStream [[x07]] 9)) (Some [x11; x22; x33; x44]) 2 2 ENDIAN_BIG
    = Returned 0 (Some f', Some [x11; x22; x33; x44])
    ∧ take (length (o_bytes (OStream [[x07]] 9))) (o_bytes f')
      = o_bytes (OStream [[x07]] 9)
    ∧ length (o_bytes f') = length (o_bytes (OStream [[x07]] 9)) + 2 * 2
    ∧ o_room f' = o_room (OStream [[x07]] 9) - 2 * 2
    ∧ ∀ i, i < 2 →
        take 2 (drop (length (o_bytes (OStream [[x07]] 9)) + i * 2)
                  (o_bytes f'))
        = if endian_eqb ENDIAN_LITTLE ENDIAN_BIG
          then take 2 (drop (i * 2) [x11; x22; x33; x44])
          else reverse (take 2 (drop (i * 2) [x11; x22; x33; x44])).
Proof.
  apply (write_layout ENDIAN_LITTLE (replicate 256 x00) 2 (OStream [[x07]] 9)
           [x11; x22; x33; x44] 2 2 ENDIAN_BIG);
    try (simpl; lia); try reflexivity.
  right. unfold buffer_size. lia.
Defined.

(** X12: two successive writes to a stream leave on it what one write of
    the two arrays joined leaves. *)
Theorem write_twice host buffer n f d1 d2 n1 n2 size order :
  1 ≤ size → 1 ≤ n1 → 1 ≤ n2 →
  endian_eqb host order = true ∨ size ≤ buffer_size →
  length buffer = buffer_size →
  length d1 = n1 * size → length d2 = n2 * size →
  (n1 + n2) * size ≤ o_room f → n1 + n2 ≤ n →
  ∃ f1 f2 f12,
    write_endian host (Some buffer) (S n) (Some f) (Some d1) n1 size order
    = Returned 0 (Some f1, Some d1)
    ∧ write_endian host (Some buffer) (S n) (Some f1) (Some d2) n2 size order
      = Returned 0 (Some f2, Some d2)
    ∧ write_endian host (Some buffer) (S n) (Some f) (Some (d1 ++ d2))
        (n1 + n2) size order
      = Returned 0 (Some f12, Some (d1 ++ d2))
    ∧ o_bytes f2 = o_bytes f12
    ∧ o_room f2 = o_room f12.
Proof.
  intros Hs H1 H2 Hfit Hbuf Hd1 Hd2 Hroom Hfuel.
  destruct (write_endian_appends host buffer n f d1 n1 size order)
    as (f1 & Hw1 & Hb1 & Hr1); try (done || lia).
  destruct (write_endian_appends host buffer n f1 d2 n2 size order)
    as (f2 & Hw2 & Hb2 & Hr2); try (done || lia).
  destruct (write_endian_appends host buffer n f (d1 ++ d2) (n1 + n2) size
              order) as (f12 & Hw12 & Hb12 & Hr12);
    try (done || lia); [rewrite length_app; lia|].
  exists f1, f2, f12. repeat split; try done.
  - rewrite Hb2, Hb1, Hb12, host_elems_add, <- app_assoc.
    rewrite host_elems_app, drop_app_length' by done. done.
  - lia.
Qed.

Lemma write_twice_witness :
  ∃ f1 f2 f12,
    write_endian ENDIAN_LITTLE (Some (replicate 256 x00)) 3
      (Some (OStream [] 9)) (Some [x11; x22]) 1 2 ENDIAN_BIG
    = Returned 0 (Some f1, Some [x11; x22])
    ∧ write_endian ENDIAN_LITTLE (Some (replicate 256 x00)) 3 (Some f1)
        (Some [x33; x44]) 1 2 ENDIAN_BIG
      = Returned 0 (Some f2, Some [x33; x44])
    ∧ write_endian ENDIAN_LITTLE (Some (replicate 256 x00)) 3
        (Some (OStream [] 9)) (Some ([x11; x22] ++ [x33; x44])) (1 + 1) 2
        ENDIAN_BIG
      = Returned 0 (Some f12, Some ([x11; x22] ++ [x33; x44]))
    ∧ o_bytes f2 = o_bytes f12
    ∧ o_room f2 = o_room f12.
Proof.
  apply (write_twice ENDIAN_LITTLE (replicate 256 x00) 2 (OStream [] 9)
           [x11; x22] [x33; x44] 1 1 2 ENDIAN_BIG);
    try (simpl; lia); try reflexivity.
  right. unfold buffer_size. lia.
Defined.

Lemma rev_elems_one_take n bs :
  n ≤ length bs → rev_elems n 1 bs = take n bs.
Proof.
  intros H. rewrite <- (take_drop n bs) at 1.
  rewrite rev_elems_app by (rewrite length_take; lia).
  apply rev_elems_one. rewrite length_take. lia.
Qed.

(** X13: for elements of one byte the order and the host are irrelevant:
    a write appends the [num] bytes as they are and a read stores the [num]
    bytes of the stream as they are, also when the call goes through the
    swap path. *)
Theorem single_byte_elements host order buffer n f d s num :
  1 ≤ num → length buffer = buffer_size → length d = num →
  num ≤ o_room f → num ≤ length s → num ≤ n →
  (∃ f',
     write_endian host (Some buffer) (S n) (Some f) (Some d) num 1 order
     = Returned 0 (Some f', Some d)
     ∧ o_bytes f' = o_bytes f ++ d)
  ∧ read_endian host (Some s) (Some d) num 1 order
    = Returned 0 (Some (drop num s), Some (take num s)).
Proof.
  intros Hn Hbuf Hd Hroom Hs Hfuel.
  assert (He : ∀ bs, num ≤ length bs →
    host_elems (negb (endian_eqb host order)) num 1 bs = take num bs).
  { intros bs Hbs. unfold host_elems. destruct (negb _).
    - by apply rev_elems_one_take.
    - by rewrite Nat.mul_1_r. }
  split.
  - destruct (write_endian_appends host buffer n f d num 1 order)
      as (f' & Hw & Hb & _); try (done || lia).
    { right. unfold buffer_size. lia. }
    exists f'. split; [done|]. rewrite Hb, He by lia.
    by rewrite take_ge by lia.
  - rewrite read_endian_returns by lia. rewrite Nat.mul_1_r, He by done. done.
Qed.

Lemma single_byte_elements_witness :
  (∃ f',
     write_endian ENDIAN_LITTLE (Some (replicate 256 x00)) 3
       (Some (OStream [] 2)) (Some [x11; x22]) 2 1 ENDIAN_BIG
     = Returned 0 (Some f', Some [x11; x22])
     ∧ o_bytes f' = o_bytes (OStream [] 2) ++ [x11; x22])
  ∧ read_endian ENDIAN_LITTLE (Some [xaa; xbb; xcc]) (Some [x11; x22]) 2 1
      ENDIAN_BIG
    = Returned 0 (Some (drop 2 [xaa; xbb; xcc]), Some (take 2 [xaa; xbb; xcc])).
Proof.
  apply (single_byte_elements ENDIAN_LITTLE ENDIAN_BIG (replicate 256 x00) 2
           (OStream [] 2) [x11; x22] [xaa; xbb; xcc] 2);
    try (simpl; lia); reflexivity.
Defined.

(** X14: on one host, for the same array, the bytes [write_be] puts on a
    stream are the bytes [write_le] puts on it with each element
    reversed. *)
Theorem write_be_le_reversed host buffer n room d num size :
  1 ≤ size ≤ buffer_size → 1 ≤ num →
  length buffer = buffer_size → length d = num * size →
  num * size ≤ room → num ≤ n →
  ∃ fb fl,
    write_be host (Some buffer) (S n) (Some (OStream [] room)) (Some d)
      num size
    = Returned 0 (Some fb, Some d)
    ∧ write_le host (Some buffer) (S n) (Some (OStream [] room)) (Some d)
        num size
      = Returned 0 (Some fl, Some d)
    ∧ o_bytes fb = rev_elems num size (o_bytes fl).
Proof.
  intros Hs Hn Hbuf Hd Hroom Hfuel. unfold write_be, write_le.
  destruct (write_endian_appends host buffer n (OStream [] room) d num size
              ENDIAN_BIG) as (fb & Hwb & Hbb & _);
    try (done || cbn [o_room]; lia).
  destruct (write_endian_appends host buffer n (OStream [] room) d num size
              ENDIAN_LITTLE) as (fl & Hwl & Hbl & _);
    try (done || cbn [o_room]; lia).
  exists fb, fl. repeat split; try done.
  rewrite Hbb, Hbl. unfold o_bytes. cbn [o_calls concat app].
  unfold host_elems. destruct host; cbn [endian_eqb negb].
  - rewrite take_ge by lia. done.
  - rewrite take_ge by lia. by rewrite rev_elems_involutive.
Qed.

Lemma write_be_le_reversed_witness :
  ∃ fb fl,
    write_be ENDIAN_LITTLE (Some (replicate 256 x00)) 3
      (Some (OStream [] 4)) (Some [x11; x22; x33; x44]) 2 2
    = Returned 0 (Some fb, Some [x11; x22; x33; x44])
    ∧ write_le ENDIAN_LITTLE (Some (replicate 256 x00)) 3
        (Some (OStream [] 4)) (Some [x11; x22; x33; x44]) 2 2
      = Returned 0 (Some fl, Some [x11; x22; x33; x44])
    ∧ o_bytes fb = rev_elems 2 2 (o_bytes fl).
Proof.
  apply (write_be_le_reversed ENDIAN_LITTLE (replicate 256 x00) 2 4
           [x11; x22; x33; x44] 2 2);
    try (unfold buffer_size; simpl; lia); reflexivity.
Defined.

End write_layout.

(** ** Further properties of the read path *)

Section read_more.

(** X15: with valid arguments a read always returns, without an access
    outside the destination: it returns 0 exactly when the stream holds [num * size]
    bytes and -1 otherwise, it consumes [num * size] bytes of the stream (all
    of it when it is shorter), the destination keeps its length, and the
    bytes of the destination after the first [num * size] are never
    written. *)
Theorem read_outcome host s d num size order :
  1 ≤ size → num * size ≤ length d →
  ∃ d',
    read_endian host (Some s) (Some d) num size order
    = Returned (if num * size <=? length s then 0 else -1)
        (Some (drop (num * size) s), Some d')
    ∧ length d' = length d
    ∧ drop (num * size) d' = drop (num * size) d
    ∧ (num * size ≤ length s →
       take (num * size) d'
       = host_elems (negb (endian_eqb host order)) num size s).
Proof.
  intros Hs Hd. rewrite read_endian_valid by lia.
  set (swap := negb (endian_eqb host order)).
  destruct (Nat.leb_spec (num * size) (length s)) as [Hle|Hlt].
  - rewrite read_loop_returns by (simpl; lia).
    cbn [outcome_map rs_file rs_mem m_data]. eexists. split; [done|].
    assert (Hl : length (host_elems swap num size s) = num * size)
      by (by apply host_elems_length).
    split; [|split].
    + apply length_splice. lia.
    + apply drop_splice_after; lia.
    + intros _. unfold splice. rewrite take_0. cbn [app].
      by apply take_app_length'.
  - set (q := length s / size).
    assert (Hq : q * size ≤ length s)
      by (subst q; rewrite Nat.mul_comm; apply Nat.Div0.mul_div_le).
    assert (Hr : length s < q * size + size).
    { subst q. pose proof (Nat.div_mod_eq (length s) size).
      pose proof (Nat.mod_upper_bound (length s) size). nia. }
    assert (q < num) by nia.
    pose proof (read_loop_short host swap num 0 size q (take (q * size) s)
                  (drop (q * size) s) d) as Hshort.
    rewrite take_drop in Hshort.
    rewrite Hshort by (rewrite ?length_take, ?length_drop; simpl; lia).
    cbn [outcome_map rs_file rs_mem m_data].
    rewrite (drop_ge s (num * size)) by lia. eexists. split; [done|].
    assert (Hl : length (host_elems swap q size (take (q * size) s)
                         ++ drop (q * size) s) = length s).
    { rewrite length_app, host_elems_length, length_drop
        by (rewrite length_take; lia). lia. }
    split; [|split].
    + apply length_splice. lia.
    + apply drop_splice_after; lia.
    + lia.
Qed.

Lemma read_outcome_witness :
  ∃ d',
    read_endian ENDIAN_LITTLE (Some [xaa; xbb; xcc])
      (Some [x00; x00; x00; x00; x07]) 2 2 ENDIAN_BIG
    = Returned (if 2 * 2 <=? length [xaa; xbb; xcc] then 0 else -1)
        (Some (drop (2 * 2) [xaa; xbb; xcc]), Some d')
    ∧ length d' = length [x00; x00; x00; x00; x07]
    ∧ drop (2 * 2) d' = drop (2 * 2) [x00; x00; x00; x00; x07]
    ∧ (2 * 2 ≤ length [xaa; xbb; xcc] →
       take (2 * 2) d'
       = host_elems (negb (endian_eqb ENDIAN_LITTLE ENDIAN_BIG)) 2 2
           [xaa; xbb; xcc]).
Proof.
  apply (read_outcome ENDIAN_LITTLE [xaa; xbb; xcc]
           [x00; x00; x00; x00; x07] 2 2 ENDIAN_BIG); simpl; lia.
Defined.

(** X16: reads compose: reading [n] elements and then [k] more from where
    the stream was left fills the two destinations with what one read of
    [n + k] elements stores in the joined destination, and leaves the stream
    at the same place. *)
Theorem read_twice host s da db n k size order :
  1 ≤ size → length da = n * size → length db = k * size →
  (n + k) * size ≤ length s →
  ∃ s1 ra s2 rb,
    read_endian host (Some s) (Some da) n size order
    = Returned 0 (Some s1, Some ra)
    ∧ read_endian host (Some s1) (Some db) k size order
      = Returned 0 (Some s2, Some rb)
    ∧ read_endian host (Some s) (Some (da ++ db)) (n + k) size order
      = Returned 0 (Some s2, Some (ra ++ rb)).
Proof.
  intros Hs Hda Hdb Hlen.
  set (swap := negb (endian_eqb host order)).
  exists (drop (n * size) s), (host_elems swap n size s),
    (drop ((n + k) * size) s),
    (host_elems swap k size (drop (n * size) s)).
  split; [|split].
  - apply read_endian_returns; done || lia.
  - rewrite read_endian_returns by (rewrite ?length_drop; done || lia).
    rewrite drop_drop.
    by replace (n * size + k * size) with ((n + k) * size) by lia.
  - rewrite read_endian_returns by (rewrite ?length_app; done || lia).
    fold swap. by rewrite host_elems_add.
Qed.

Lemma read_twice_witness :
  ∃ s1 ra s2 rb,
    read_endian ENDIAN_LITTLE (Some [x11; x22; x33; x44; x55])
      (Some [x00; x00]) 1 2 ENDIAN_BIG
    = Returned 0 (Some s1, Some ra)
    ∧ read_endian ENDIAN_LITTLE (Some s1) (Some [x00; x00]) 1 2 ENDIAN_BIG
      = Returned 0 (Some s2, Some rb)
    ∧ read_endian ENDIAN_LITTLE (Some [x11; x22; x33; x44; x55])
        (Some ([x00; x00] ++ [x00; x00])) (1 + 1) 2 ENDIAN_BIG
      = Returned 0 (Some s2, Some (ra ++ rb)).
Proof.
  apply (read_twice ENDIAN_LITTLE [x11; x22; x33; x44; x55]
           [x00; x00] [x00; x00] 1 1 2 ENDIAN_BIG); simpl; (lia || reflexivity).
Defined.

End read_more.

(** ** Portability *)

Section portability.

Lemma host_elems_array_bytes_back host order size vs :
  host_elems (negb (endian_eqb host order)) (length vs) size
    (array_bytes order size vs)
  = array_bytes host size vs.
Proof.
  replace (endian_eqb host order) with (endian_eqb order host)
    by (by destruct host, order).
  apply host_elems_array_bytes.
Qed.

(** Values written on one host are read back as the same values on any
    host. *)
Lemma write_read_across_hosts writer reader buffer n room vs d0 size order :
  1 ≤ size → vs ≠ [] →
  endian_eqb writer order = true ∨ size ≤ buffer_size →
  length buffer = buffer_size →
  length vs * size ≤ room → length vs ≤ n →
  length d0 = length vs * size →
  ∃ f',
    write_endian writer (Some buffer) (S n) (Some (OStream [] room))
      (Some (array_bytes writer size vs)) (length vs) size order
    = Returned 0 (Some f', Some (array_bytes writer size vs))
    ∧ o_bytes f' = array_bytes order size vs
    ∧ read_endian reader (Some (o_bytes f')) (Some d0) (length vs) size order
      = Returned 0 (Some [], Some (array_bytes reader size vs)).
Proof.
  intros Hs Hvs Hfit Hbuf Hroom Hfuel Hd0.
  destruct (write_endian_host_independent writer buffer n room vs size order)
    as (f' & Hw & Hb); try done.
  exists f'. split; [done|]. split; [done|].
  assert (Hl : length (o_bytes f') = length vs * size)
    by (rewrite Hb; apply length_array_bytes).
  rewrite read_endian_returns by lia.
  rewrite drop_ge by lia. by rewrite Hb, host_elems_array_bytes_back.
Qed.

(** X18: a file is portable between hosts: an array of integer values
    written in a given order on one host and read in the same order on
    another host (of the same or of the other byte order) yields the memory
    image of the same values on the reading host, and the bytes on the
    stream are the image of the values in the requested order whatever the
    writing host. *)
Theorem portable_round_trip writer reader buffer n room vs d0 size order :
  1 ≤ size ≤ buffer_size → vs ≠ [] →
  length buffer = buffer_size →
  length vs * size ≤ room → length vs ≤ n →
  length d0 = length vs * size →
  ∃ f',
    write_endian writer (Some buffer) (S n) (Some (OStream [] room))
      (Some (array_bytes writer size vs)) (length vs) size order
    = Returned 0 (Some f', Some (array_bytes writer size vs))
    ∧ o_bytes f' = array_bytes order size vs
    ∧ read_endian reader (Some (o_bytes f')) (Some d0) (length vs) size order
      = Returned 0 (Some [], Some (array_bytes reader size vs)).
Proof.
  intros Hs Hvs Hbuf Hroom Hfuel Hd0.
  apply write_read_across_hosts; try done; lia.
Qed.

Lemma portable_round_trip_witness :
  ∃ f',
    write_endian ENDIAN_LITTLE (Some (replicate 256 x00)) 3
      (Some (OStream [] 8))
      (Some (array_bytes ENDIAN_LITTLE 4 [0x11223344; 0xAABBCCDD]%Z))
      (length [0x11223344; 0xAABBCCDD]%Z) 4 ENDIAN_BIG
    = Returned 0
        (Some f', Some (array_bytes ENDIAN_LITTLE 4 [0x11223344; 0xAABBCCDD]%Z))
    ∧ o_bytes f' = array_bytes ENDIAN_BIG 4 [0x11223344; 0xAABBCCDD]%Z
    ∧ read_endian ENDIAN_BIG (Some (o_bytes f')) (Some (replicate 8 x00))
        (length [0x11223344; 0xAABBCCDD]%Z) 4 ENDIAN_BIG
      = Returned 0
          (Some [], Some (array_bytes ENDIAN_BIG 4 [0x11223344; 0xAABBCCDD]%Z)).
Proof.
  apply (portable_round_trip ENDIAN_LITTLE ENDIAN_BIG (replicate 256 x00) 2 8
           [0x11223344; 0xAABBCCDD]%Z (replicate 8 x00) 4 ENDIAN_BIG);
    try (unfold buffer_size; simpl; lia); try reflexivity.
  discriminate.
Defined.

End portability.

(** ** The typed wrappers *)

Section typed_wrappers.
Local Open Scope Z_scope.

Lemma store_host_length host n x : length (store_host host n x) = n.
Proof.
  destruct host; simpl; unfold store_be;
    by rewrite ?length_reverse, store_le_length.
Qed.

Lemma load_store_host host n x :
  load_host host (store_host host n x) = x mod 256 ^ Z.of_nat n.
Proof.
  destruct host; simpl.
  - apply load_store_le.
  - unfold load_be, store_be. rewrite reverse_involutive. apply load_store_le.
Qed.

Lemma array_bytes_elem host size vs (i : nat) v :
  vs !! i = Some v →
  take size (drop (i * size) (array_bytes host size vs))
  = store_host host size v.
Proof.
  unfold array_bytes. revert i.
  induction vs as [|w vs IH]; intros i Hi; [done|].
  cbn [map concat]. destruct i as [|i].
  - injection Hi as ->. simpl.
    apply take_app_length'. by rewrite store_host_length.
  - rewrite drop_app_ge by (rewrite store_host_length; lia).
    rewrite store_host_length.
    replace (S i * size - size)%nat with (i * size)%nat by lia.
    by apply IH.
Qed.

Lemma write_ENDIAN_order E host alloc fuel file arr n size :
  write_ENDIAN E host alloc fuel file arr n size
  = write_endian host alloc fuel file arr n size (order_of E).
Proof. by destruct E. Qed.

Lemma read_ENDIAN_order E host file arr n size :
  read_ENDIAN E host file arr n size
  = read_endian host file arr n size (order_of E).
Proof. by destruct E. Qed.

(** X19: the typed wrappers carry integer arrays between hosts.  For every
    integer type and order, writing the values on one host returns 0 (the
    element always fits the scratch buffer), the stream holds the values in
    the requested order, and the matching read wrapper on any host returns 0
    and leaves an array whose element [i] is the written value [i], reduced
    modulo [2 ^ (8 * sizeof T)]. *)
Theorem typed_wrappers_round_trip T E writer reader buffer n room vs d0 :
  vs ≠ [] → length buffer = buffer_size →
  (length vs * sizeof T ≤ room)%nat → (length vs ≤ n)%nat →
  length d0 = (length vs * sizeof T)%nat →
  ∃ f' arr,
    write_NUMBERTYPE_ENDIAN T E writer (Some buffer) (S n)
      (Some (OStream [] room)) (Some (array_bytes writer (sizeof T) vs))
      (length vs)
    = Returned 0 (Some f', Some (array_bytes writer (sizeof T) vs))
    ∧ o_bytes f' = array_bytes (order_of E) (sizeof T) vs
    ∧ read_NUMBERTYPE_ENDIAN T E reader (Some (o_bytes f')) (Some d0)
        (length vs)
      = Returned 0 (Some [], Some arr)
    ∧ ∀ (i : nat) v, vs !! i = Some v →
        load_host reader (take (sizeof T) (drop (i * sizeof T) arr))
        = v mod 256 ^ Z.of_nat (sizeof T).
Proof.
  intros Hvs Hbuf Hroom Hfuel Hd0.
  unfold write_NUMBERTYPE_ENDIAN, read_NUMBERTYPE_ENDIAN.
  rewrite write_ENDIAN_order.
  destruct (write_read_across_hosts writer reader buffer n room vs d0
              (sizeof T) (order_of E)) as (f' & Hw & Hb & Hr); try done.
  - destruct T; simpl; lia.
  - right. destruct T; unfold buffer_size; simpl; lia.
  - exists f', (array_bytes reader (sizeof T) vs).
    rewrite read_ENDIAN_order. repeat split; try done.
    intros i v Hi. rewrite (array_bytes_elem reader (sizeof T) vs i v Hi).
    apply load_store_host.
Qed.

Lemma typed_wrappers_round_trip_witness :
  ∃ f' arr,
    write_NUMBERTYPE_ENDIAN int16_t be ENDIAN_LITTLE
      (Some (replicate 256 x00)) 3 (Some (OStream [] 4))
      (Some (array_bytes ENDIAN_LITTLE (sizeof int16_t) [-2; 0x1234]))
      (length [-2; 0x1234])
    = Returned 0
        (Some f',
         Some (array_bytes ENDIAN_LITTLE (sizeof int16_t) [-2; 0x1234]))
    ∧ o_bytes f' = array_bytes (order_of be) (sizeof int16_t) [-2; 0x1234]
    ∧ read_NUMBERTYPE_ENDIAN int16_t be ENDIAN_BIG (Some (o_bytes f'))
        (Some (replicate 4 x00)) (length [-2; 0x1234])
      = Returned 0 (Some [], Some arr)
    ∧ ∀ (i : nat) v, [-2; 0x1234] !! i = Some v →
        load_host ENDIAN_BIG
          (take (sizeof int16_t) (drop (i * sizeof int16_t) arr))
        = v mod 256 ^ Z.of_nat (sizeof int16_t).
Proof.
  apply (typed_wrappers_round_trip int16_t be ENDIAN_LITTLE ENDIAN_BIG
           (replicate 256 x00) 2 4 [-2; 0x1234] (replicate 4 x00));
    try (simpl; lia); try reflexivity.
  discriminate.
Defined.

End typed_wrappers.

Section write_stall.

(** X21: on the swap path an element larger than the scratch buffer is
    never written: whatever the number of elements, the sink and the fuel,
    the call is still in its loop, the stream holds the bytes it held before
    and the room of the sink is what it was. *)
Theorem write_swap_stalls_above_buffer_size host buffer fuel f d num size
  order :
  1 ≤ num → buffer_size < size → endian_eqb host order = false →
  ∃ f',
    write_endian host (Some buffer) fuel (Some f) (Some d) num size order
    = Running (Some f', Some d)
    ∧ o_bytes f' = o_bytes f
    ∧ o_room f' = o_room f.
Proof.
  intros Hn Hs Heq. destruct f as [calls room].
  rewrite write_endian_large_size by (done || lia).
  eexists. split; [done|]. split; [|done].
  unfold o_bytes. cbn [o_calls]. rewrite concat_app.
  replace (concat (replicate fuel [])) with (@nil byte);
    [by rewrite app_nil_r|].
  induction fuel as [|fuel IH]; [done|]. by simpl.
Qed.

Lemma write_swap_stalls_above_buffer_size_witness :
  ∃ f',
    write_endian ENDIAN_BIG (Some (replicate 256 x00)) 7
      (Some (OStream [[x07]] 1000)) (Some (replicate 600 x01)) 2 300
      ENDIAN_LITTLE
    = Running (Some f', Some (replicate 600 x01))
    ∧ o_bytes f' = o_bytes (OStream [[x07]] 1000)
    ∧ o_room f' = o_room (OStream [[x07]] 1000).
Proof.
  apply (write_swap_stalls_above_buffer_size ENDIAN_BIG (replicate 256 x00) 7
           (OStream [[x07]] 1000) (replicate 600 x01) 2 300 ENDIAN_LITTLE);
    try (unfold buffer_size; lia); reflexivity.
Defined.

End write_stall.

(** ** The scenario of [src/test.c] *)

Section test_scenario.

Example test_write_be host :
  write_be host (Some (replicate 256 x00)) 5 (Some (OStream [] 64))
    (Some (array_bytes host 4 data_out)) 4 4
  = Returned 0 (Some (OStream [be_image] 48), Some (array_bytes host 4 data_out)).
Proof. destruct host; vm_compute; reflexivity. Qed.

Example test_write_le host :
  write_le host (Some (replicate 256 x00)) 5 (Some (OStream [] 64))
    (Some (array_bytes host 4 data_out)) 4 4
  = Returned 0 (Some (OStream [le_image] 48), Some (array_bytes host 4 data_out)).
Proof. destruct host; vm_compute; reflexivity. Qed.

Example test_read_be host :
  read_be host (Some be_image) (Some (replicate 16 x00)) 4 4
  = Returned 0 (Some [], Some (array_bytes host 4 data_out)).
Proof. destruct host; vm_compute; reflexivity. Qed.

Example test_read_le host :
  read_le host (Some le_image) (Some (replicate 16 x00)) 4 4
  = Returned 0 (Some [], Some (array_bytes host 4 data_out)).
Proof. destruct host; vm_compute; reflexivity. Qed.

(** Batches at the boundary of the scratch buffer: 100 elements of 3 bytes
    go out as 85 elements, then 15. *)
Example test_batches :
  match write_be ENDIAN_LITTLE (Some (replicate 256 x00)) 5
          (Some (OStream [] 1000)) (Some (replicate 300 x01)) 100 3 with
  | Returned rc (Some f, _) => (rc, length <$> o_calls f)
  | _ => (1%Z, [])
  end = (0%Z, [255; 45]).
Proof. vm_compute. reflexivity. Qed.

End test_scenario.
